(** * Wald and Wilson confidence intervals for a proportion

    The code cell of [CI-Proportions-Wald-vs-Wilsons.ipynb], embedded as a
    function of the three quantities it hard-codes ([n], [x],
    [conf_level]).  The cell is written once, over an abstract arithmetic,
    and read twice:

    - [Exact]: over the real numbers, the reading in which the
      specification states its properties;
    - [Binary64]: over IEEE 754 binary64, the numbers CPython and numpy
      compute with.

    scipy's [norm.ppf] is not part of the repository; it is a parameter of
    the cell throughout. *)

From Stdlib Require Import ZArith QArith Qabs Reals Lra Lia Psatz Floats List Bool.
From Stdlib Require Import String Ascii DecimalString.
Import ListNotations.

(** ** Exceptions and results *)

(** The exceptions that matter here: the two the arithmetic of the cell can
    raise, and the one the specification names. *)
Inductive exn : Set :=
| ZeroDivisionError
| OverflowError
| InvalidArgument.

Inductive result (A : Type) : Type :=
| Ok (a : A)
| Raise (e : exn).

Arguments Ok {A} a.
Arguments Raise {A} e.

Definition bind {A B : Type} (c : result A) (k : A -> result B) : result B :=
  match c with
  | Ok a => k a
  | Raise e => Raise e
  end.

Notation "x <- c ;; k" := (bind c (fun x => k))
  (at level 61, c at next level, right associativity).

Definition fmap {A B : Type} (f : A -> B) (c : result A) : result B :=
  a <- c ;; Ok (f a).

(** The run returns, and what it returns satisfies [P]. *)
Definition returns {A : Type} (r : result A) (P : A -> Prop) : Prop :=
  match r with
  | Ok a => P a
  | Raise _ => False
  end.

(** ** The arithmetic of the cell *)

(** What the cell asks of its numbers.  The two conversions from Python's
    unbounded [int] answer [None] where CPython raises [OverflowError]. *)
Class Arith (T : Type) : Type := {
  num_add : T -> T -> T;
  num_sub : T -> T -> T;
  num_mul : T -> T -> T;
  num_div : T -> T -> T;
  num_sqrt : T -> T;
  (** the [int] literals [1] and [2] next to a float *)
  lit1 : T;
  lit2 : T;
  (** an [int] operand next to a float: [float(n)] *)
  int_to_float : Z -> option T;
  (** [x / n] on two [int]s with [n != 0]: the quotient, rounded once *)
  int_quot : Z -> Z -> option T
}.

Declare Scope arith_scope.
Delimit Scope arith_scope with A.
Notation "a + b" := (num_add a b) : arith_scope.
Notation "a - b" := (num_sub a b) : arith_scope.
Notation "a * b" := (num_mul a b) : arith_scope.
Notation "a / b" := (num_div a b) : arith_scope.

(** The names the cell binds, in the order it binds them. *)
Record namespace (T : Type) : Type := {
  p_hat : T;
  z : T;
  wald_se : T;
  wald_lower : T;
  wald_upper : T;
  denominator : T;
  centre_adj : T;
  adj_std_dev : T;
  wilson_lower : T;
  wilson_upper : T
}.

Arguments p_hat {T} _.
Arguments z {T} _.
Arguments wald_se {T} _.
Arguments wald_lower {T} _.
Arguments wald_upper {T} _.
Arguments denominator {T} _.
Arguments centre_adj {T} _.
Arguments adj_std_dev {T} _.
Arguments wilson_lower {T} _.
Arguments wilson_upper {T} _.

Record interval (T : Type) : Type := {
  lower : T;
  upper : T
}.

Arguments lower {T} _.
Arguments upper {T} _.

Section Cell.
Context {T : Type} {arith : Arith T}.

(** [scipy.stats.norm.ppf] *)
Variable norm_ppf : T -> T.

Definition lift (o : option T) : result T :=
  match o with
  | Some v => Ok v
  | None => Raise OverflowError
  end.

(** [x / n] on [int]s *)
Definition py_truediv (x n : Z) : result T :=
  if (n =? 0)%Z then Raise ZeroDivisionError else lift (int_quot x n).

(** [z**2].  numpy hands it to the C library's [pow]; it is taken here as
    the product [z * z], rounded once.  The two agree at the critical
    value of the notebook, whose exact square lies 0.3 units in the last
    place from the rounded product, but not at every float: where a
    binary64 statement below leaves that critical value, it is about this
    product or does not depend on the square. *)
Definition sqr (a : T) : T := (a * a)%A.

Definition cell (n x : Z) (conf_level : T) : result (namespace T) :=
  p_hat <- py_truediv x n ;;
  let z := norm_ppf (lit1 - (lit1 - conf_level) / lit2)%A in
  n_f <- lift (int_to_float n) ;;
  let wald_se := num_sqrt (p_hat * (lit1 - p_hat) / n_f)%A in
  let wald_lower := (p_hat - z * wald_se)%A in
  let wald_upper := (p_hat + z * wald_se)%A in
  let denominator := (lit1 + sqr z / n_f)%A in
  n2_f <- lift (int_to_float (2 * n)) ;;
  let centre_adj := (p_hat + sqr z / n2_f)%A in
  n4_f <- lift (int_to_float (4 * n)) ;;
  let adj_std_dev :=
    num_sqrt ((p_hat * (lit1 - p_hat) + sqr z / n4_f) / n_f)%A in
  let wilson_lower := ((centre_adj - z * adj_std_dev) / denominator)%A in
  let wilson_upper := ((centre_adj + z * adj_std_dev) / denominator)%A in
  Ok {| p_hat := p_hat; z := z; wald_se := wald_se;
        wald_lower := wald_lower; wald_upper := wald_upper;
        denominator := denominator; centre_adj := centre_adj;
        adj_std_dev := adj_std_dev;
        wilson_lower := wilson_lower; wilson_upper := wilson_upper |}.

(** The two estimators: the cell, read at the pair of names it prints. *)
Definition wald (trials successes : Z) (conf : T) : result (interval T) :=
  fmap (fun v => {| lower := wald_lower v; upper := wald_upper v |})
       (cell trials successes conf).

Definition wilson (trials successes : Z) (conf : T) : result (interval T) :=
  fmap (fun v => {| lower := wilson_lower v; upper := wilson_upper v |})
       (cell trials successes conf).
End Cell.

(** ** Reading over the reals *)

Module Exact.

(** Exact arithmetic: every [int] converts and every quotient exists.
    ([sqrt] of a negative real is [0] here where numpy answers [nan]; on a
    valid sample no root of a negative number is taken.)  This is the
    reading the statements made "over the reals" refer to; what the code
    returns is the binary64 reading. *)
#[export] Instance real_arith : Arith R := {|
  num_add := Rplus;
  num_sub := Rminus;
  num_mul := Rmult;
  num_div := Rdiv;
  num_sqrt := R_sqrt.sqrt;
  lit1 := 1%R;
  lit2 := 2%R;
  int_to_float := fun n => Some (IZR n);
  int_quot := fun x n => Some (IZR x / IZR n)%R
|}.

(** A sample and a confidence level as the specification admits them. *)
Definition valid (trials successes : Z) (conf : R) : Prop :=
  (0 < trials)%Z /\ (0 <= successes <= trials)%Z /\ (0 < conf < 1)%R.

(** What the normal quantile is known to satisfy on the levels the cell
    feeds it: a two-sided level in (0,1) asks for a quantile above the
    median, which is positive. *)
Definition upper_quantile (ppf : R -> R) : Prop :=
  forall q : R, (1 / 2 < q < 1)%R -> (0 < ppf q)%R.

(** *** The formulas as the specification words them *)

Section Spec.
Variable ppf : R -> R.
Local Open Scope R_scope.

Definition spec_p_hat (trials successes : Z) : R :=
  IZR successes / IZR trials.

Definition spec_z (conf : R) : R := ppf (1 - (1 - conf) / 2).


End Spec.

(** *** Widths *)

(** Width of an interval: upper minus lower. *)
Definition width (i : interval R) : R := (upper i - lower i)%R.

(** Both runs return, and the first interval is narrower than, as wide as,
    no wider than the second. *)
Definition narrower (r1 r2 : result (interval R)) : Prop :=
  exists i1 i2, r1 = Ok i1 /\ r2 = Ok i2 /\ (width i1 < width i2)%R.

Definition as_wide (r1 r2 : result (interval R)) : Prop :=
  exists i1 i2, r1 = Ok i1 /\ r2 = Ok i2 /\ width i1 = width i2.

Definition no_wider (r1 r2 : result (interval R)) : Prop :=
  exists i1 i2, r1 = Ok i1 /\ r2 = Ok i2 /\ (width i1 <= width i2)%R.

(** [p_hat * (1 - p_hat)], the quantity both widths grow with. *)
Definition variance (n x : Z) : R :=
  (IZR x / IZR n * (1 - IZR x / IZR n))%R.

Definition wald_width_of (zc N v : R) : R :=
  (2 * zc * R_sqrt.sqrt (v / N))%R.

Definition wilson_width_of (zc N v : R) : R :=
  (2 * zc * R_sqrt.sqrt ((v + zc * zc / (4 * N)) / N) / (1 + zc * zc / N))%R.

End Exact.

(** ** Reading over binary64 *)

Module Binary64.

Definition finite_or_none (f : float) : option float :=
  if is_infinity f then None else Some f.

(** [float(n)]: round to nearest, ties to even; CPython raises
    [OverflowError] where the rounded value is not finite. *)
Definition of_int (n : Z) : option float :=
  finite_or_none (SF2Prim (binary_normalize prec emax n 0 false)).

Definition Z2SF (n : Z) : spec_float :=
  match n with
  | Z0 => S754_zero false
  | Zpos m => S754_finite false m 0
  | Zneg m => S754_finite true m 0
  end.

(** [int / int]: the exact quotient rounded once; [OverflowError] where it
    is too large for a float. *)
Definition true_quot (x n : Z) : option float :=
  finite_or_none (SF2Prim (SFdiv prec emax (Z2SF x) (Z2SF n))).

(** numpy's [sqrt] answers [nan] on a negative number, as the IEEE root
    does; [z**2] is the correctly rounded square. *)
#[export] Instance b64_arith : Arith float := {|
  num_add := PrimFloat.add;
  num_sub := PrimFloat.sub;
  num_mul := PrimFloat.mul;
  num_div := PrimFloat.div;
  num_sqrt := PrimFloat.sqrt;
  lit1 := 0x1p+0%float;
  lit2 := 0x1p+1%float;
  int_to_float := of_int;
  int_quot := true_quot
|}.

(** The binary64 number nearest to 0.95, the [conf_level] of the cell. *)
Definition conf_95 : float := 0x1.e666666666666p-1%float.

(** [1 - (1 - conf_level) / 2] at that level: the binary64 number nearest
    to 0.975. *)
Definition q_975 : float := 0x1.f333333333333p-1%float.

(** [norm.ppf] there: scipy answers 1.959963984540054, which is this
    number. *)
Definition z_975 : float := 0x1.f5c0331eeff84p+0%float.

(** A quantile function that is right at the one point the cell asks for
    when [conf_level = 0.95]. *)
Definition ppf_95 (q : float) : float := z_975.

(** The exact rational value of a finite binary64 number. *)
Definition to_Q (f : float) : option Q :=
  match Prim2SF f with
  | S754_zero _ => Some 0%Q
  | S754_finite s m e =>
      let num := if s then Zneg m else Zpos m in
      Some match e with
           | Z0 => inject_Z num
           | Zpos k => inject_Z (num * 2 ^ Zpos k)
           | Zneg k => Qmake num (2 ^ k)
           end
  | _ => None
  end.

(** [f] is finite and lies strictly within [tol] of [c]. *)
Definition within (tol c : Q) (f : float) : Prop :=
  match to_Q f with
  | Some q => (Qabs (q - c) < tol)%Q
  | None => False
  end.

Definition below (f : float) (c : Q) : Prop :=
  match to_Q f with
  | Some q => (q < c)%Q
  | None => False
  end.

Definition above (f : float) (c : Q) : Prop :=
  match to_Q f with
  | Some q => (c < q)%Q
  | None => False
  end.

Definition valid (trials successes : Z) (conf : float) : Prop :=
  (0 < trials)%Z /\ (0 <= successes <= trials)%Z
  /\ above conf 0 /\ below conf 1.

(** The sum of two binary64 numbers, taken exactly, is twice a third. *)
Definition sum_is_twice (l u p : float) : Prop :=
  match to_Q l, to_Q u, to_Q p with
  | Some a, Some b, Some c => (a + b == 2 * c)%Q
  | _, _, _ => False
  end.

Fixpoint iterate {A : Type} (k : nat) (f : A -> A) (a : A) : A :=
  match k with
  | O => a
  | S k' => f (iterate k' f a)
  end.

(** The binary64 numbers within [k] units in the last place of [f]. *)
Definition neighbours (k : nat) (f : float) : list float :=
  map (fun j => iterate j next_down f) (rev (seq 1 k))
  ++ f :: map (fun j => iterate j next_up f) (seq 1 k).

(** Every sample with at most [k] trials. *)
Definition samples (k : nat) : list (Z * Z) :=
  flat_map (fun n => map (fun x => (Z.of_nat n, Z.of_nat x)) (seq 0 (S n)))
           (seq 1 k).

(** The run returns, no bound is [nan], and both intervals have
    [lower <= upper]. *)
Definition ordered_b (r : result (namespace float)) : bool :=
  match r with
  | Ok v => (wald_lower v <=? wald_upper v)%float
            && (wilson_lower v <=? wilson_upper v)%float
  | Raise _ => false
  end.

(** The run returns and its Wilson bounds are within 1e-15 of [0,1]. *)
Definition near_unit_b (r : result (namespace float)) : bool :=
  match r with
  | Ok v => (-0x1p-50 <=? wilson_lower v)%float
            && (wilson_upper v <=? 1 + 0x1p-50)%float
  | Raise _ => false
  end.

(** *** Where binary64 parts from the reals *)

(** The largest binary64 number below 1: a confidence level inside (0,1)
    at which [1 - (1 - conf_level) / 2] rounds to 1.0. *)
Definition conf_top : float := 0x1.fffffffffffffp-1%float.



(** Upper minus lower, taken exactly, for finite bounds. *)
Definition exact_width (i : interval float) : option Q :=
  match to_Q (lower i), to_Q (upper i) with
  | Some l, Some u => Some (u - l)%Q
  | _, _ => None
  end.

(** Both runs return finite bounds, and the first interval is wider than
    the second, or as wide. *)
Definition wider (r1 r2 : result (interval float)) : Prop :=
  match r1, r2 with
  | Ok i1, Ok i2 =>
      match exact_width i1, exact_width i2 with
      | Some w1, Some w2 => (w2 < w1)%Q
      | _, _ => False
      end
  | _, _ => False
  end.

Definition same_width (r1 r2 : result (interval float)) : Prop :=
  match r1, r2 with
  | Ok i1, Ok i2 =>
      match exact_width i1, exact_width i2 with
      | Some w1, Some w2 => (w1 == w2)%Q
      | _, _ => False
      end
  | _, _ => False
  end.

(** [b] is one of the two numbers [p -+ zc * sqrt (p (1 - p) / trials)]
    with [p = successes / trials], nothing rounded: they are the numbers
    at distance [zc * sqrt (p (1 - p) / trials)] from [p]. *)
Definition on_exact_wald (trials successes : Z) (zc b : float) : Prop :=
  match to_Q zc, to_Q b with
  | Some zq, Some q =>
      let p := (inject_Z successes / inject_Z trials)%Q in
      ((p - q) * (p - q) == zq * zq * (p * (1 - p) / inject_Z trials))%Q
  | _, _ => False
  end.

(** [b] is one of the two Wilson bounds with nothing rounded: they are
    the solutions of the score equation. *)
Definition on_exact_wilson (trials successes : Z) (zc b : float) : Prop :=
  match to_Q zc, to_Q b with
  | Some zq, Some q =>
      let p := (inject_Z successes / inject_Z trials)%Q in
      ((p - q) * (p - q) == zq * zq * (q * (1 - q) / inject_Z trials))%Q
  | _, _ => False
  end.

End Binary64.

(** ** More of the notebook *)

(** *** What the text of the notebook says about the intervals *)

Module Shape.
Local Open Scope R_scope.

(** The Wilson interval as the text of the notebook gives it (section 3). *)
Definition doc_wilson (ppf : R -> R) (n x : Z) (conf : R) : interval R :=
  let p := IZR x / IZR n in
  let zc := ppf (1 - (1 - conf) / 2) in
  let root := R_sqrt.sqrt (p * (1 - p) / IZR n + zc ^ 2 / (4 * IZR n ^ 2)) in
  {| lower := (p + zc ^ 2 / (2 * IZR n) - zc * root) / (1 + zc ^ 2 / IZR n);
     upper := (p + zc ^ 2 / (2 * IZR n) + zc * root) / (1 + zc ^ 2 / IZR n) |}.

(** [q] is a proportion whose score statistic against the sample is [zc]
    in absolute value. *)
Definition score_equation (p zc N q : R) : Prop :=
  (p - q) ^ 2 = zc ^ 2 * (q * (1 - q) / N).

Definition inside (q : R) (i : interval R) : Prop :=
  lower i <= q <= upper i.

(** [i] lies within [j]. *)
Definition nested (i j : interval R) : Prop :=
  lower j <= lower i /\ upper i <= upper j.

(** The interval seen from the failures: [1 - upper, 1 - lower]. *)
Definition mirror (i : interval R) : interval R :=
  {| lower := 1 - upper i; upper := 1 - lower i |}.

Definition increasing_quantile (ppf : R -> R) : Prop :=
  forall q1 q2 : R, 1 / 2 < q1 -> q1 <= q2 -> q2 < 1 -> ppf q1 <= ppf q2.
End Shape.

(** *** The output of the cell *)

Module Display.
Import Binary64.

(** [q] in ten-thousandths, rounded to the nearest integer, ties to the
    even one: the number [format(., ".4f")] writes. *)
Definition round4 (q : Q) : Z :=
  let a := (Qnum q * 10000)%Z in
  let b := Zpos (Qden q) in
  let m := (a / b)%Z in
  let r := (a mod b)%Z in
  match (2 * r ?= b)%Z with
  | Lt => m
  | Gt => (m + 1)%Z
  | Eq => if Z.even m then m else (m + 1)%Z
  end.

Definition digit (d : Z) : ascii := ascii_of_N (48 + Z.to_N d).

(** A natural number in decimal. *)
Definition dec (k : Z) : string :=
  NilZero.string_of_uint (N.to_uint (Z.to_N k)).

(** The four digits after the point. *)
Definition frac4 (r : Z) : string :=
  String (digit (r / 1000))
    (String (digit (r / 100 mod 10))
       (String (digit (r / 10 mod 10))
          (String (digit (r mod 10)) EmptyString))).

(** [format(f, ".4f")]: the sign of [f], then its magnitude rounded to four
    decimals. *)
Definition render4 (negative : bool) (k : Z) : string :=
  ((if negative then "-" else "")
   ++ dec (k / 10000) ++ "." ++ frac4 (k mod 10000))%string.

Definition fixed4 (f : float) : string :=
  match Prim2SF f, to_Q f with
  | S754_nan, _ => "nan"
  | S754_infinity s, _ => if s then "-inf" else "inf"
  | (S754_zero s | S754_finite s _ _), Some q => render4 s (round4 (Qabs q))
  | _, None => ""
  end.

(** The three [print] calls that end the cell. *)
Definition display (v : namespace float) : list string :=
  [ ("Sample proportion (p̂): " ++ fixed4 (p_hat v))%string;
    ("Wald CI:    (" ++ fixed4 (wald_lower v) ++ ", "
       ++ fixed4 (wald_upper v) ++ ")")%string;
    ("Wilson CI:  (" ++ fixed4 (wilson_lower v) ++ ", "
       ++ fixed4 (wilson_upper v) ++ ")")%string ].

(** The whole cell: what it writes to standard output, or the exception
    that stops it before anything is written. *)
Definition notebook (ppf : float -> float) (n x : Z) (conf_level : float)
  : result (list string) :=
  fmap display (cell ppf n x conf_level).
End Display.

(** * Properties *)

(** ** Whatever the arithmetic: no argument is validated *)

Section Validation.
Context {T : Type} {arith : Arith T}.
Variable norm_ppf : T -> T.

Lemma zero_trials_raise (x : Z) (conf : T) :
  cell norm_ppf 0 x conf = Raise ZeroDivisionError.
Proof. reflexivity. Qed.

Lemma cell_never_invalid_argument (n x : Z) (conf : T) :
  cell norm_ppf n x conf <> Raise InvalidArgument.
Proof.
  unfold cell, py_truediv, lift, bind.
  destruct (n =? 0)%Z; [discriminate|].
  destruct (int_quot x n); [| discriminate].
  destruct (int_to_float n); [| discriminate].
  destruct (int_to_float (2 * n)); [| discriminate].
  destruct (int_to_float (4 * n)); discriminate.
Qed.

Lemma cell_returns (n x : Z) (conf : T) :
  n <> 0%Z ->
  int_quot x n <> None ->
  int_to_float n <> None ->
  int_to_float (2 * n) <> None ->
  int_to_float (4 * n) <> None ->
  exists v, cell norm_ppf n x conf = Ok v.
Proof.
  intros Hn Hq H1 H2 H4.
  unfold cell, py_truediv, lift, bind.
  destruct (Z.eqb_spec n 0) as [E | _]; [contradiction|].
  destruct (int_quot x n); [| contradiction].
  destruct (int_to_float n); [| contradiction].
  destruct (int_to_float (2 * n)); [| contradiction].
  destruct (int_to_float (4 * n)); [| contradiction].
  eexists; reflexivity.
Qed.

(** C2, as amended.  Neither estimator checks its arguments: none of them
    ever fails with [InvalidArgument].  With [trials = 0] both fail with
    [ZeroDivisionError], raised by [x / n].  With any other [trials], of
    either sign, and any [successes] and confidence level, both return an
    interval as soon as the four conversions from [int] succeed (they
    always do over the reals; over binary64 a failing one raises
    [OverflowError]). *)
Theorem no_argument_validation (trials successes : Z) (conf : T) :
  (trials = 0%Z ->
   wald norm_ppf trials successes conf = Raise ZeroDivisionError
   /\ wilson norm_ppf trials successes conf = Raise ZeroDivisionError)
  /\ (wald norm_ppf trials successes conf <> Raise InvalidArgument
      /\ wilson norm_ppf trials successes conf <> Raise InvalidArgument)
  /\ (trials <> 0%Z ->
      int_quot successes trials <> None ->
      int_to_float trials <> None ->
      int_to_float (2 * trials) <> None ->
      int_to_float (4 * trials) <> None ->
      exists i j,
        wald norm_ppf trials successes conf = Ok i
        /\ wilson norm_ppf trials successes conf = Ok j).
Proof.
  split; [| split].
  - intros ->. unfold wald, wilson. rewrite zero_trials_raise. split; reflexivity.
  - pose proof (cell_never_invalid_argument trials successes conf) as H.
    unfold wald, wilson, fmap, bind.
    destruct (cell norm_ppf trials successes conf) as [v | e];
      [split; discriminate | split; intros E; apply H; injection E as ->; reflexivity].
  - intros Hn Hq H1 H2 H4.
    destruct (cell_returns trials successes conf Hn Hq H1 H2 H4) as (v & Hv).
    unfold wald, wilson. rewrite Hv. do 2 eexists; split; reflexivity.
Qed.
End Validation.

(** ** Over the reals *)

Module ExactFacts.
Import Exact.
Local Open Scope R_scope.

(** *** Real algebra behind the two intervals *)

Lemma sq_order (a b : R) : 0 <= b -> a * a <= b * b -> a <= b.
Proof.
  intros Hb Hsq. destruct (Rle_or_lt a b) as [H | H]; [exact H |]. nra.
Qed.


Lemma diff_of_bounds (c w d : R) :
  d <> 0 -> (c + w) / d - (c - w) / d = 2 * w / d.
Proof. intros Hd. field. exact Hd. Qed.

Lemma proportion_in_unit (n x : Z) :
  (0 < n)%Z -> (0 <= x <= n)%Z -> 0 <= IZR x / IZR n <= 1.
Proof.
  intros Hn [Hx0 Hxn].
  assert (HN : 0 < IZR n) by (apply IZR_lt; exact Hn).
  assert (HX0 : 0 <= IZR x) by (apply IZR_le; exact Hx0).
  assert (HXn : IZR x <= IZR n) by (apply IZR_le; exact Hxn).
  split.
  - apply Rmult_le_pos; [exact HX0 | left; apply Rinv_0_lt_compat; exact HN].
  - apply Rmult_le_reg_r with (IZR n); [exact HN |].
    unfold Rdiv. rewrite Rmult_assoc, Rinv_l by lra. lra.
Qed.

Lemma level_above_median (conf : R) :
  0 < conf < 1 -> 1 / 2 < 1 - (1 - conf) / 2 < 1.
Proof. intros [H0 H1]. split; lra. Qed.

Lemma radicand_nonneg (p zc N : R) :
  0 <= p <= 1 -> 0 < N -> 0 <= (p * (1 - p) + zc * zc / (4 * N)) / N.
Proof.
  intros Hp HN.
  assert (0 <= zc * zc / (4 * N)).
  { apply Rmult_le_pos; [nra | left; apply Rinv_0_lt_compat; lra]. }
  apply Rmult_le_pos; [nra | left; apply Rinv_0_lt_compat; lra].
Qed.

Section Score.
Variables p zc N a : R.
Hypothesis Hp : 0 <= p <= 1.
Hypothesis HN : 0 < N.
Hypothesis Ha : a * a = (p * (1 - p) + zc * zc / (4 * N)) / N.

Lemma half_term_nonneg : 0 <= zc * zc / (2 * N).
Proof.
  apply Rmult_le_pos; [nra | left; apply Rinv_0_lt_compat; lra].
Qed.

Lemma score_square :
  (zc * a) * (zc * a)
  = 2 * (zc * zc / (2 * N)) * (p * (1 - p))
    + (zc * zc / (2 * N)) * (zc * zc / (2 * N)).
Proof.
  replace (zc * a * (zc * a)) with (zc * zc * (a * a)) by ring.
  rewrite Ha. field. lra.
Qed.

Lemma denominator_pos : 0 < 1 + zc * zc / N.
Proof.
  assert (H : zc * zc / N = 2 * (zc * zc / (2 * N))) by (field; lra).
  pose proof half_term_nonneg. lra.
Qed.

Lemma score_low : 0 <= p + zc * zc / (2 * N) - zc * a.
Proof.
  pose proof score_square as Hs. pose proof half_term_nonneg as Ht.
  set (t := zc * zc / (2 * N)) in *.
  apply Rge_le, Rge_minus, Rle_ge. apply sq_order; nra.
Qed.

Lemma score_high : p + zc * zc / (2 * N) + zc * a <= 1 + zc * zc / N.
Proof.
  pose proof score_square as Hs. pose proof half_term_nonneg as Ht.
  assert (Hu : zc * zc / N = 2 * (zc * zc / (2 * N))) by (field; lra).
  rewrite Hu.
  set (t := zc * zc / (2 * N)) in *.
  assert (Hq : 0 <= t * ((1 - p) * (1 - p))) by (apply Rmult_le_pos; nra).
  assert (zc * a <= 1 - p + t); [apply sq_order; nra | lra].
Qed.
End Score.

(** *** The cell over the reals, in closed form *)

Lemma cell_ok (ppf : R -> R) (n x : Z) (conf : R) :
  n <> 0%Z ->
  let p := IZR x / IZR n in
  let zc := ppf (1 - (1 - conf) / 2) in
  let se := R_sqrt.sqrt (p * (1 - p) / IZR n) in
  let d := 1 + zc * zc / IZR n in
  let c := p + zc * zc / (2 * IZR n) in
  let a := R_sqrt.sqrt ((p * (1 - p) + zc * zc / (4 * IZR n)) / IZR n) in
  cell ppf n x conf
  = Ok {| p_hat := p; z := zc; wald_se := se;
          wald_lower := p - zc * se; wald_upper := p + zc * se;
          denominator := d; centre_adj := c; adj_std_dev := a;
          wilson_lower := (c - zc * a) / d;
          wilson_upper := (c + zc * a) / d |}.
Proof.
  intros Hn. unfold cell, py_truediv.
  destruct (Z.eqb_spec n 0) as [E | _]; [contradiction |].
  unfold lift, bind, sqr.
  cbn [int_to_float int_quot real_arith
       num_add num_sub num_mul num_div num_sqrt lit1 lit2].
  rewrite !mult_IZR. reflexivity.
Qed.

Lemma score_in_unit (ppf : R -> R) (n x : Z) (conf : R) :
  (0 < n)%Z -> (0 <= x <= n)%Z ->
  exists v, cell ppf n x conf = Ok v
            /\ 0 <= wilson_lower v /\ wilson_upper v <= 1.
Proof.
  intros Hn Hx.
  rewrite cell_ok by lia.
  eexists; split; [reflexivity |]. cbn [wilson_lower wilson_upper].
  pose proof (proportion_in_unit n x Hn Hx) as Hp.
  assert (HN : 0 < IZR n) by (apply IZR_lt; exact Hn).
  set (p := IZR x / IZR n) in *.
  set (zc := ppf _).
  set (a := R_sqrt.sqrt _).
  assert (Ha : a * a = (p * (1 - p) + zc * zc / (4 * IZR n)) / IZR n).
  { apply sqrt_sqrt, radicand_nonneg; assumption. }
  pose proof (denominator_pos zc (IZR n) HN) as Hd.
  split.
  - apply Rmult_le_pos; [| left; apply Rinv_0_lt_compat; exact Hd].
    apply score_low; assumption.
  - apply Rmult_le_reg_r with (1 + zc * zc / IZR n); [exact Hd |].
    unfold Rdiv at 1. rewrite Rmult_assoc, Rinv_l by lra.
    rewrite Rmult_1_r, Rmult_1_l. apply score_high; assumption.
Qed.

(** C1, as amended.  Over the reals, for every valid sample and level (and
    whatever the critical value), the Wilson estimator returns an interval
    with [0 <= lower] and [upper <= 1]. *)
Theorem wilson_within_unit_interval
  (ppf : R -> R) (trials successes : Z) (conf : R) :
  valid trials successes conf ->
  exists i, wilson ppf trials successes conf = Ok i
            /\ 0 <= lower i /\ upper i <= 1.
Proof.
  intros (Hn & Hx & _).
  destruct (score_in_unit ppf trials successes conf Hn Hx) as (v & Hv & Hlo & Hhi).
  unfold wilson. rewrite Hv.
  eexists; split; [reflexivity |]. split; assumption.
Qed.

Lemma wilson_within_unit_interval_witness :
  valid 30 1 (95 / 100)
  /\ exists i, wilson (fun _ : R => 2) 30 1 (95 / 100) = Ok i
               /\ 0 <= lower i /\ upper i <= 1.
Proof.
  assert (H : valid 30 1 (95 / 100)) by (unfold valid; repeat split; (lia || lra)).
  split; [exact H | exact (wilson_within_unit_interval _ 30%Z 1%Z _ H)].
Defined.











(** *** Widths along the number of successes *)

Lemma wald_width_closed (ppf : R -> R) (n x : Z) (conf : R) :
  (0 < n)%Z ->
  exists i, wald ppf n x conf = Ok i
            /\ width i
               = wald_width_of (ppf (1 - (1 - conf) / 2)) (IZR n) (variance n x).
Proof.
  intros Hn. unfold wald. rewrite cell_ok by lia.
  eexists; split; [reflexivity |].
  unfold width, wald_width_of, variance. cbn. ring.
Qed.

Lemma wilson_width_closed (ppf : R -> R) (n x : Z) (conf : R) :
  (0 < n)%Z ->
  exists i, wilson ppf n x conf = Ok i
            /\ width i
               = wilson_width_of (ppf (1 - (1 - conf) / 2)) (IZR n) (variance n x).
Proof.
  intros Hn. unfold wilson. rewrite cell_ok by lia.
  eexists; split; [reflexivity |].
  unfold width, wilson_width_of, variance. cbn.
  assert (HN : 0 < IZR n) by (apply IZR_lt; exact Hn).
  pose proof (denominator_pos (ppf (1 - (1 - conf) / 2)) (IZR n) HN).
  rewrite diff_of_bounds by lra. unfold Rdiv. ring.
Qed.

Section WidthOrder.
Variables zc N v v' : R.
Hypothesis Hz : 0 < zc.
Hypothesis HN : 0 < N.
Hypothesis Hv : 0 <= v.

Lemma wald_width_lt : v < v' -> wald_width_of zc N v < wald_width_of zc N v'.
Proof.
  intros Hlt. unfold wald_width_of.
  assert (H : R_sqrt.sqrt (v / N) < R_sqrt.sqrt (v' / N)).
  { apply sqrt_lt_1_alt. split.
    - apply Rmult_le_pos; [exact Hv | left; apply Rinv_0_lt_compat; exact HN].
    - apply Rmult_lt_compat_r; [apply Rinv_0_lt_compat; exact HN | exact Hlt]. }
  nra.
Qed.

Lemma wilson_width_lt :
  v < v' -> wilson_width_of zc N v < wilson_width_of zc N v'.
Proof.
  intros Hlt. unfold wilson_width_of.
  assert (Ht : 0 <= zc * zc / (4 * N)).
  { apply Rmult_le_pos; [nra | left; apply Rinv_0_lt_compat; lra]. }
  pose proof (denominator_pos zc N HN) as Hd.
  assert (H : R_sqrt.sqrt ((v + zc * zc / (4 * N)) / N)
              < R_sqrt.sqrt ((v' + zc * zc / (4 * N)) / N)).
  { apply sqrt_lt_1_alt. split.
    - apply Rmult_le_pos; [lra | left; apply Rinv_0_lt_compat; exact HN].
    - apply Rmult_lt_compat_r; [apply Rinv_0_lt_compat; exact HN | lra]. }
  apply Rmult_lt_compat_r; [apply Rinv_0_lt_compat; exact Hd | nra].
Qed.

Lemma wald_width_le : v <= v' -> wald_width_of zc N v <= wald_width_of zc N v'.
Proof.
  intros [Hlt | ->]; [left; apply wald_width_lt; exact Hlt | right; reflexivity].
Qed.

Lemma wilson_width_le :
  v <= v' -> wilson_width_of zc N v <= wilson_width_of zc N v'.
Proof.
  intros [Hlt | ->]; [left; apply wilson_width_lt; exact Hlt | right; reflexivity].
Qed.
End WidthOrder.

Lemma variance_nonneg (n x : Z) :
  (0 < n)%Z -> (0 <= x <= n)%Z -> 0 <= variance n x.
Proof.
  intros Hn Hx. pose proof (proportion_in_unit n x Hn Hx). unfold variance. nra.
Qed.

Lemma variance_counts (n x : Z) :
  (0 < n)%Z -> variance n x = IZR (x * (n - x)) / (IZR n * IZR n).
Proof.
  intros Hn. assert (HN : 0 < IZR n) by (apply IZR_lt; exact Hn).
  unfold variance. rewrite mult_IZR, minus_IZR. field. lra.
Qed.

Lemma variance_order (n x y : Z) :
  (0 < n)%Z -> (x * (n - x) < y * (n - y))%Z -> variance n x < variance n y.
Proof.
  intros Hn Hlt. assert (HN : 0 < IZR n) by (apply IZR_lt; exact Hn).
  rewrite !variance_counts by exact Hn.
  apply Rmult_lt_compat_r; [apply Rinv_0_lt_compat; nra | apply IZR_lt; exact Hlt].
Qed.

Lemma variance_order_le (n x y : Z) :
  (0 < n)%Z -> (x * (n - x) <= y * (n - y))%Z -> variance n x <= variance n y.
Proof.
  intros Hn Hle. assert (HN : 0 < IZR n) by (apply IZR_lt; exact Hn).
  rewrite !variance_counts by exact Hn.
  apply Rmult_le_compat_r;
    [left; apply Rinv_0_lt_compat; nra | apply IZR_le; exact Hle].
Qed.

Lemma counts_peak (n x : Z) :
  (0 < n)%Z -> (0 <= x <= n)%Z -> (x * (n - x) <= (n / 2) * (n - n / 2))%Z.
Proof.
  intros Hn Hx.
  pose proof (Z.div_mod n 2 ltac:(lia)) as Hdm.
  pose proof (Z.mod_pos_bound n 2 ltac:(lia)) as Hm.
  set (m := (n / 2)%Z) in *.
  assert (H : (0 <= (m - x) * (n - m - x))%Z).
  { destruct (Z_le_gt_dec x m); [apply Z.mul_nonneg_nonneg; lia |].
    replace ((m - x) * (n - m - x))%Z with ((x - m) * (x - (n - m)))%Z by ring.
    apply Z.mul_nonneg_nonneg; lia. }
  nia.
Qed.

Lemma peak_near_half (n : Z) :
  (0 < n)%Z -> Rabs (IZR (n / 2) / IZR n - 1 / 2) <= 1 / (2 * IZR n).
Proof.
  intros Hn. assert (HN : 0 < IZR n) by (apply IZR_lt; exact Hn).
  pose proof (Z.div_mod n 2 ltac:(lia)) as Hdm.
  pose proof (Z.mod_pos_bound n 2 ltac:(lia)) as Hm.
  set (m := (n / 2)%Z) in *.
  assert (H1 : 2 * IZR m <= IZR n).
  { rewrite <- mult_IZR. apply IZR_le. lia. }
  assert (H2 : IZR n <= 2 * IZR m + 1).
  { rewrite <- mult_IZR, <- plus_IZR. apply IZR_le. lia. }
  assert (E : IZR m / IZR n - 1 / 2 = (2 * IZR m - IZR n) / (2 * IZR n))
    by (field; lra).
  rewrite E. unfold Rdiv. rewrite Rabs_mult.
  rewrite (Rabs_pos_eq (/ (2 * IZR n))) by (left; apply Rinv_0_lt_compat; lra).
  apply Rmult_le_compat_r; [left; apply Rinv_0_lt_compat; lra |].
  apply Rabs_le. lra.
Qed.

(** Run the same estimator at [x] and at [y] and compare the closed forms
    of the two widths. *)
Ltac two_runs Hn x y :=
  let i := fresh "i" in let j := fresh "j" in
  let Hi := fresh "Hi" in let Hj := fresh "Hj" in
  let Wi := fresh "Wi" in let Wj := fresh "Wj" in
  match goal with
  | |- _ (wald ?ppf ?n _ ?c) (wald _ _ _ _) =>
      destruct (wald_width_closed ppf n x c Hn) as (i & Hi & Wi);
      destruct (wald_width_closed ppf n y c Hn) as (j & Hj & Wj)
  | |- _ (wilson ?ppf ?n _ ?c) (wilson _ _ _ _) =>
      destruct (wilson_width_closed ppf n x c Hn) as (i & Hi & Wi);
      destruct (wilson_width_closed ppf n y c Hn) as (j & Hj & Wj)
  end;
  exists i, j; split; [exact Hi |]; split; [exact Hj |]; rewrite Wi, Wj.

(** C9, as amended.  Over the reals, for fixed [trials] and level, along
    [successes = 0 .. trials] the width of the Wald interval and the width
    of the Wilson interval grow
    at every step below the middle ([2 x + 1 < trials]), shrink at every
    step above it ([trials < 2 x + 1]), stay equal across the middle step
    of an odd [trials], and are largest at [successes = trials / 2], where
    [p_hat] is within [1 / (2 trials)] of one half. *)
Theorem widths_rise_then_fall (ppf : R -> R) (trials : Z) (conf : R) :
  upper_quantile ppf ->
  (0 < trials)%Z ->
  0 < conf < 1 ->
  (forall x : Z, (0 <= x)%Z -> (2 * x + 1 < trials)%Z ->
     narrower (wald ppf trials x conf) (wald ppf trials (x + 1) conf)
     /\ narrower (wilson ppf trials x conf) (wilson ppf trials (x + 1) conf))
  /\ (forall x : Z, (x + 1 <= trials)%Z -> (trials < 2 * x + 1)%Z ->
        narrower (wald ppf trials (x + 1) conf) (wald ppf trials x conf)
        /\ narrower (wilson ppf trials (x + 1) conf) (wilson ppf trials x conf))
  /\ (forall x : Z, (2 * x + 1 = trials)%Z ->
        as_wide (wald ppf trials x conf) (wald ppf trials (x + 1) conf)
        /\ as_wide (wilson ppf trials x conf) (wilson ppf trials (x + 1) conf))
  /\ (forall x : Z, (0 <= x <= trials)%Z ->
        no_wider (wald ppf trials x conf) (wald ppf trials (trials / 2) conf)
        /\ no_wider (wilson ppf trials x conf)
                    (wilson ppf trials (trials / 2) conf))
  /\ Rabs (IZR (trials / 2) / IZR trials - 1 / 2) <= 1 / (2 * IZR trials).
Proof.
  intros Hq Hn Hc.
  pose proof (Hq _ (level_above_median conf Hc)) as Hz.
  assert (HN : 0 < IZR trials) by (apply IZR_lt; exact Hn).
  repeat split.
  - two_runs Hn x (x + 1)%Z.
    apply wald_width_lt; try assumption;
      [apply variance_nonneg; lia | apply variance_order; [exact Hn | nia]].
  - two_runs Hn x (x + 1)%Z.
    apply wilson_width_lt; try assumption;
      [apply variance_nonneg; lia | apply variance_order; [exact Hn | nia]].
  - two_runs Hn (x + 1)%Z x.
    apply wald_width_lt; try assumption;
      [apply variance_nonneg; lia | apply variance_order; [exact Hn | nia]].
  - two_runs Hn (x + 1)%Z x.
    apply wilson_width_lt; try assumption;
      [apply variance_nonneg; lia | apply variance_order; [exact Hn | nia]].
  - two_runs Hn x (x + 1)%Z.
    f_equal. rewrite !variance_counts by exact Hn. do 2 f_equal. nia.
  - two_runs Hn x (x + 1)%Z.
    f_equal. rewrite !variance_counts by exact Hn. do 2 f_equal. nia.
  - two_runs Hn x (trials / 2)%Z.
    apply wald_width_le; try assumption;
      [apply variance_nonneg; lia
      | apply variance_order_le; [exact Hn | apply counts_peak; lia]].
  - two_runs Hn x (trials / 2)%Z.
    apply wilson_width_le; try assumption;
      [apply variance_nonneg; lia
      | apply variance_order_le; [exact Hn | apply counts_peak; lia]].
  - apply peak_near_half; exact Hn.
Qed.

Lemma widths_rise_then_fall_witness :
  upper_quantile (fun _ : R => 2)
  /\ (0 < 30)%Z
  /\ 0 < 95 / 100 < 1
  /\ narrower (wald (fun _ : R => 2) 30 1 (95 / 100))
              (wald (fun _ : R => 2) 30 (1 + 1) (95 / 100))
  /\ narrower (wilson (fun _ : R => 2) 30 (28 + 1) (95 / 100))
              (wilson (fun _ : R => 2) 30 28 (95 / 100)).
Proof.
  assert (Hq : upper_quantile (fun _ : R => 2)) by (intros q _; lra).
  assert (Hn : (0 < 30)%Z) by lia.
  assert (Hc : 0 < 95 / 100 < 1) by lra.
  destruct (widths_rise_then_fall _ 30%Z _ Hq Hn Hc) as (Hup & Hdown & _).
  split; [exact Hq |]. split; [exact Hn |]. split; [exact Hc |].
  split.
  - apply (Hup 1%Z); lia.
  - apply (Hdown 28%Z); lia.
Defined.

End ExactFacts.

(** ** Over binary64 *)

Lemma returns_ex {A : Type} (r : result A) (P : A -> Prop) :
  returns r P -> exists a, r = Ok a /\ P a.
Proof.
  destruct r as [a | e]; cbn;
    [intros H; exists a; split; [reflexivity | exact H] | contradiction].
Qed.

Module Binary64Facts.
Import Binary64.

(** The level the cell hands to [norm.ppf] when [conf_level = 0.95]. *)
Lemma level_95 : (lit1 - (lit1 - conf_95) / lit2)%A = q_975.
Proof. reflexivity. Qed.

(** Only the value of the quantile function at that level matters. *)
Lemma cell_at_95 (ppf : float -> float) (n x : Z) :
  ppf q_975 = z_975 -> cell ppf n x conf_95 = cell ppf_95 n x conf_95.
Proof.
  intros H. unfold cell.
  destruct (py_truediv x n) as [p | e]; [| reflexivity].
  unfold bind. rewrite level_95, H. reflexivity.
Qed.

Lemma valid_95 (n x : Z) : (0 < n)%Z -> (0 <= x <= n)%Z -> valid n x conf_95.
Proof.
  intros Hn Hx. repeat split; try lia; vm_compute; reflexivity.
Qed.

(** C5.  With [trials = 30], [successes = 1] and [conf_level = 0.95], where
    scipy's quantile is 1.959963984540054, the Wald estimator returns
    (-0.0309, 0.0976) and the Wilson estimator (0.0059, 0.1667), each bound
    within 1e-3 of that value. *)
Theorem notebook_intervals (ppf : float -> float) :
  ppf q_975 = z_975 ->
  exists iw js,
    wald ppf 30 1 conf_95 = Ok iw
    /\ wilson ppf 30 1 conf_95 = Ok js
    /\ within (1 # 1000) (-309 # 10000) (lower iw)
    /\ within (1 # 1000) (976 # 10000) (upper iw)
    /\ within (1 # 1000) (59 # 10000) (lower js)
    /\ within (1 # 1000) (1667 # 10000) (upper js).
Proof.
  intros H. unfold wald, wilson. rewrite (cell_at_95 ppf 30 1 H).
  destruct (returns_ex (cell ppf_95 30 1 conf_95)
    (fun v => within (1 # 1000) (-309 # 10000) (wald_lower v)
           /\ within (1 # 1000) (976 # 10000) (wald_upper v)
           /\ within (1 # 1000) (59 # 10000) (wilson_lower v)
           /\ within (1 # 1000) (1667 # 10000) (wilson_upper v)))
    as (v & Hv & H1 & H2 & H3 & H4).
  { vm_compute. repeat split. }
  rewrite Hv. cbn [fmap bind].
  do 2 eexists. split; [reflexivity |]. split; [reflexivity |].
  cbn [lower upper]. repeat split; assumption.
Qed.

Lemma notebook_intervals_witness :
  ppf_95 q_975 = z_975
  /\ exists iw js,
       wald ppf_95 30 1 conf_95 = Ok iw
       /\ wilson ppf_95 30 1 conf_95 = Ok js
       /\ within (1 # 1000) (-309 # 10000) (lower iw)
       /\ within (1 # 1000) (976 # 10000) (upper iw)
       /\ within (1 # 1000) (59 # 10000) (lower js)
       /\ within (1 # 1000) (1667 # 10000) (upper js).
Proof.
  split; [reflexivity | apply (notebook_intervals ppf_95); reflexivity].
Defined.

(** The same run against the recorded output of the cell: every number it
    prints with four decimals is the computed one rounded there. *)
Lemma notebook_stdout :
  returns (cell ppf_95 30 1 conf_95)
    (fun v => within (5 # 100000) (333 # 10000) (p_hat v)
           /\ within (5 # 100000) (-309 # 10000) (wald_lower v)
           /\ within (5 # 100000) (976 # 10000) (wald_upper v)
           /\ within (5 # 100000) (59 # 10000) (wilson_lower v)
           /\ within (5 # 100000) (1667 # 10000) (wilson_upper v)).
Proof. vm_compute. repeat split. Qed.

(** C7.  Some valid input, with few trials and [p_hat] near 0, makes the
    Wald estimator return a bound outside [0,1]: at [trials = 30],
    [successes = 1], level 0.95 (where scipy's quantile is
    1.959963984540054) the lower bound is negative.  Nothing clamps it. *)
Theorem wald_leaves_unit_interval (ppf : float -> float) :
  ppf q_975 = z_975 ->
  exists (trials successes : Z) (i : interval float),
    valid trials successes conf_95
    /\ wald ppf trials successes conf_95 = Ok i
    /\ below (lower i) 0.
Proof.
  intros H. exists 30%Z, 1%Z.
  unfold wald. rewrite (cell_at_95 ppf 30 1 H).
  destruct (returns_ex (wald ppf_95 30 1 conf_95) (fun i => below (lower i) 0))
    as (i & Hi & Hlo); [vm_compute; reflexivity |].
  exists i. split; [apply valid_95; lia |]. split; assumption.
Qed.

Lemma wald_leaves_unit_interval_witness :
  ppf_95 q_975 = z_975
  /\ exists (trials successes : Z) (i : interval float),
       valid trials successes conf_95
       /\ wald ppf_95 trials successes conf_95 = Ok i
       /\ below (lower i) 0.
Proof.
  split; [reflexivity | apply (wald_leaves_unit_interval ppf_95); reflexivity].
Defined.

(** *** Where rounding breaks what holds over the reals *)

(** Against C1 as stated: at [trials = successes = 90], level 0.95, the
    Wilson upper bound the cell computes is above 1. *)
Lemma wilson_upper_above_one :
  valid 90 90 conf_95
  /\ exists i, wilson ppf_95 90 90 conf_95 = Ok i /\ above (upper i) 1.
Proof.
  split; [apply valid_95; lia |].
  apply returns_ex. vm_compute. reflexivity.
Qed.

(** It stays above 1 for every critical value within four units in the
    last place of [z_975], the square being the rounded product at each. *)
Lemma upper_bound_overshoots_near_z :
  Forall (fun zc => returns (wilson (fun _ => zc) 90 90 conf_95)
                            (fun i => above (upper i) 1))
         (neighbours 4 z_975).
Proof.
  let l := eval vm_compute in (neighbours 4 z_975) in
  change (neighbours 4 z_975) with l.
  repeat (constructor; [vm_compute; reflexivity |]). constructor.
Qed.

(** Away from the last place nothing is lost: for every sample of up to 60
    trials at level 0.95 the Wilson bounds computed in binary64 stay within
    1e-15 of [0,1]. *)
Lemma wilson_near_unit_on_grid :
  forallb (fun s => near_unit_b (cell ppf_95 (fst s) (snd s) conf_95))
          (samples 60) = true.
Proof. vm_compute. reflexivity. Qed.

(** At [trials = 21], [successes = 0], level 0.95, the Wilson lower bound
    the cell computes is negative. *)
Lemma wilson_lower_below_zero :
  valid 21 0 conf_95
  /\ exists v, cell ppf_95 21 0 conf_95 = Ok v /\ below (wilson_lower v) 0.
Proof.
  split; [apply valid_95; lia |].
  apply returns_ex. vm_compute. reflexivity.
Qed.


Lemma wald_midpoint_off_near_z :
  Forall (fun zc => returns (cell (fun _ => zc) 30 1 conf_95)
            (fun v => ~ sum_is_twice (wald_lower v) (wald_upper v) (p_hat v)))
         (neighbours 4 z_975).
Proof.
  let l := eval vm_compute in (neighbours 4 z_975) in
  change (neighbours 4 z_975) with l.
  repeat (constructor; [vm_compute; intros H; discriminate H |]). constructor.
Qed.

(** With no successes the Wald bounds are both zero in binary64 too. *)
Lemma wald_zero_successes_grid :
  forallb (fun n => match cell ppf_95 (Z.of_nat n) 0 conf_95 with
                    | Ok v => (wald_lower v =? 0)%float && (wald_upper v =? 0)%float
                    | Raise _ => false
                    end)
          (seq 1 200) = true.
Proof. vm_compute. reflexivity. Qed.

(** Rounding keeps the order of the bounds: every sample of up to 60
    trials, at level 0.95. *)
Lemma ordered_on_grid :
  forallb (fun s => ordered_b (cell ppf_95 (fst s) (snd s) conf_95))
          (samples 60) = true.
Proof. vm_compute. reflexivity. Qed.

(** *** Invalid arguments *)

(** Against C2 as stated: [trials = 0] raises [ZeroDivisionError], and a
    negative [trials] is computed with, down to a Wilson interval that is
    negative throughout. *)
Lemma invalid_arguments_not_rejected :
  ~ valid 0 1 conf_95
  /\ wald ppf_95 0 1 conf_95 = Raise ZeroDivisionError
  /\ wilson ppf_95 0 1 conf_95 = Raise ZeroDivisionError
  /\ ~ valid (-30) 1 conf_95
  /\ (exists i, wald ppf_95 (-30) 1 conf_95 = Ok i /\ below (lower i) 0)
  /\ (exists j, wilson ppf_95 (-30) 1 conf_95 = Ok j /\ below (upper j) 0).
Proof.
  split; [intros (H & _); lia |].
  split; [reflexivity |]. split; [reflexivity |].
  split; [intros (H & _); lia |].
  split; apply returns_ex; vm_compute; reflexivity.
Qed.

Lemma no_argument_validation_witness :
  (wald ppf_95 0 1 conf_95 = Raise ZeroDivisionError
   /\ wilson ppf_95 0 1 conf_95 = Raise ZeroDivisionError)
  /\ exists i j,
       wald ppf_95 (-30) 1 conf_95 = Ok i
       /\ wilson ppf_95 (-30) 1 conf_95 = Ok j.
Proof.
  split.
  - apply (proj1 (no_argument_validation ppf_95 0 1 conf_95)). reflexivity.
  - apply (proj2 (proj2 (no_argument_validation ppf_95 (-30) 1 conf_95)));
      [lia | vm_compute; discriminate ..].
Defined.

End Binary64Facts.

(** ** More over the reals: the shape of the two intervals *)

Module ShapeFacts.
Import Exact ExactFacts Shape.
Local Open Scope R_scope.

Lemma between_roots (L U q : R) :
  L <= U -> (q - L) * (q - U) <= 0 -> L <= q <= U.
Proof. intros HLU H. split; nra. Qed.

Lemma sq_lt_iff (a b : R) : 0 <= a -> 0 <= b -> (a < b <-> a * a < b * b).
Proof. intros Ha Hb. split; intros H; nra. Qed.

(** The two Wilson bounds in the terms the proofs below use: with
    [d = 1 + zc^2 / N], [c = p + zc^2 / (2 N)] and [w = zc * adj], the
    bounds are [(c -+ w) / d], and [w^2 = c^2 - d p^2]. *)
Section Roots.
Variables p zc N a : R.
Hypothesis Hp : 0 <= p <= 1.
Hypothesis HN : 0 < N.
Hypothesis Ha : a * a = (p * (1 - p) + zc * zc / (4 * N)) / N.

Local Abbreviation d := (1 + zc * zc / N).
Local Abbreviation c := (p + zc * zc / (2 * N)).

Lemma discriminant : (zc * a) * (zc * a) = c * c - d * (p * p).
Proof. rewrite (score_square p zc N a HN Ha). field. lra. Qed.

Lemma quadratic_factor (q : R) :
  d * ((q - (c - zc * a) / d) * (q - (c + zc * a) / d))
  = (p - q) ^ 2 - zc ^ 2 * (q * (1 - q) / N).
Proof.
  pose proof (denominator_pos zc N HN) as Hd.
  pose proof discriminant as Hw.
  set (w := zc * a) in *. set (dd := d) in *. set (cc := c) in *.
  assert (E : dd * ((q - (cc - w) / dd) * (q - (cc + w) / dd))
              = dd * (q * q) - 2 * cc * q + (cc * cc - w * w) / dd)
    by (field; lra).
  rewrite E, Hw.
  replace ((cc * cc - (cc * cc - dd * (p * p))) / dd) with (p * p)
    by (field; lra).
  unfold dd, cc. field. lra.
Qed.

Lemma lower_root :
  (p - (c - zc * a) / d) ^ 2
  = zc ^ 2 * ((c - zc * a) / d * (1 - (c - zc * a) / d) / N).
Proof.
  pose proof (quadratic_factor ((c - zc * a) / d)) as H.
  rewrite Rminus_diag, Rmult_0_l, Rmult_0_r in H. lra.
Qed.

Lemma upper_root :
  (p - (c + zc * a) / d) ^ 2
  = zc ^ 2 * ((c + zc * a) / d * (1 - (c + zc * a) / d) / N).
Proof.
  pose proof (quadratic_factor ((c + zc * a) / d)) as H.
  rewrite Rminus_diag, Rmult_0_r, Rmult_0_r in H. lra.
Qed.
End Roots.

(** The closed form of a run on a valid sample, with the facts about its
    parts that the properties below need. *)
Lemma run_facts (ppf : R -> R) (n x : Z) (conf : R) :
  (0 < n)%Z -> (0 <= x <= n)%Z ->
  let p := IZR x / IZR n in
  let zc := ppf (1 - (1 - conf) / 2) in
  exists se a : R,
    cell ppf n x conf
    = Ok {| p_hat := p; z := zc; wald_se := se;
            wald_lower := p - zc * se; wald_upper := p + zc * se;
            denominator := 1 + zc * zc / IZR n;
            centre_adj := p + zc * zc / (2 * IZR n);
            adj_std_dev := a;
            wilson_lower := (p + zc * zc / (2 * IZR n) - zc * a)
                            / (1 + zc * zc / IZR n);
            wilson_upper := (p + zc * zc / (2 * IZR n) + zc * a)
                            / (1 + zc * zc / IZR n) |}
    /\ 0 <= p <= 1 /\ 0 < IZR n
    /\ 0 <= se /\ se * se = p * (1 - p) / IZR n
    /\ 0 <= a /\ a * a = (p * (1 - p) + zc * zc / (4 * IZR n)) / IZR n.
Proof.
  intros Hn Hx p zc.
  pose proof (proportion_in_unit n x Hn Hx) as Hp. fold p in Hp.
  assert (HN : 0 < IZR n) by (apply IZR_lt; exact Hn).
  exists (R_sqrt.sqrt (p * (1 - p) / IZR n)),
         (R_sqrt.sqrt ((p * (1 - p) + zc * zc / (4 * IZR n)) / IZR n)).
  split; [apply cell_ok; lia |].
  split; [exact Hp |]. split; [exact HN |].
  split; [apply sqrt_pos |].
  split.
  { apply sqrt_sqrt. apply Rmult_le_pos; [nra | left; apply Rinv_0_lt_compat; exact HN]. }
  split; [apply sqrt_pos |].
  apply sqrt_sqrt, radicand_nonneg; assumption.
Qed.

(** X1.  Over the reals, for every valid input the Wilson interval the code
    computes is the one the text of the notebook gives in its section 3,
    [(p + z^2/(2n) -+ z sqrt (p (1 - p) / n + z^2 / (4 n^2))) / (1 + z^2/n)]:
    the code and its documentation agree. *)
Theorem wilson_as_documented (ppf : R -> R) (trials successes : Z) (conf : R) :
  valid trials successes conf ->
  wilson ppf trials successes conf = Ok (doc_wilson ppf trials successes conf).
Proof.
  intros (Hn & _ & _).
  assert (HN : 0 < IZR trials) by (apply IZR_lt; exact Hn).
  unfold wilson. rewrite cell_ok by lia.
  unfold doc_wilson. cbn [fmap bind wilson_lower wilson_upper].
  set (p := IZR successes / IZR trials).
  set (zc := ppf _).
  replace (p * (1 - p) / IZR trials + zc ^ 2 / (4 * IZR trials ^ 2))
    with ((p * (1 - p) + zc * zc / (4 * IZR trials)) / IZR trials)
    by (field; lra).
  replace (zc ^ 2) with (zc * zc) by ring.
  reflexivity.
Qed.

Lemma adj_positive (p zc N a : R) :
  0 <= p <= 1 -> 0 < N -> 0 < zc -> 0 <= a ->
  a * a = (p * (1 - p) + zc * zc / (4 * N)) / N ->
  0 < a.
Proof.
  intros Hp HN Hz Ha0 Ha.
  destruct Ha0 as [Hlt | Heq]; [exact Hlt | exfalso].
  rewrite <- Heq in Ha. rewrite Rmult_0_l in Ha.
  assert (Hrad : 0 < (p * (1 - p) + zc * zc / (4 * N)) / N).
  { apply Rmult_lt_0_compat; [| apply Rinv_0_lt_compat; exact HN].
    assert (0 < zc * zc / (4 * N)).
    { apply Rmult_lt_0_compat; [nra | apply Rinv_0_lt_compat; lra]. }
    nra. }
  lra.
Qed.

(** X2.  Over the reals, for every valid input the two Wilson bounds are
    distinct and are exactly the solutions of the score equation: a
    number [q] satisfies [(p_hat - q)^2 = z^2 q (1 - q) / trials] if and
    only if it is the lower or the upper bound. *)
Theorem wilson_solves_score (ppf : R -> R) (trials successes : Z) (conf : R) :
  upper_quantile ppf ->
  valid trials successes conf ->
  exists i, wilson ppf trials successes conf = Ok i
    /\ lower i < upper i
    /\ forall q : R,
         score_equation (spec_p_hat trials successes) (spec_z ppf conf)
                        (IZR trials) q
         <-> (q = lower i \/ q = upper i).
Proof.
  intros Hq (Hn & Hx & Hc).
  pose proof (Hq _ (level_above_median conf Hc)) as Hz.
  destruct (run_facts ppf trials successes conf Hn Hx)
    as (se & a & Hrun & Hp & HN & _ & _ & Ha0 & Ha).
  unfold wilson. rewrite Hrun.
  eexists; split; [reflexivity |].
  unfold score_equation, spec_p_hat, spec_z.
  cbn [fmap bind lower upper wilson_lower wilson_upper].
  set (p := IZR successes / IZR trials) in *.
  set (zc := ppf _) in *.
  pose proof (denominator_pos zc (IZR trials) HN) as Hd.
  pose proof (adj_positive p zc (IZR trials) a Hp HN Hz Ha0 Ha) as Hapos.
  split.
  - apply Rmult_lt_compat_r; [apply Rinv_0_lt_compat; exact Hd | nra].
  - intros q.
    pose proof (quadratic_factor p zc (IZR trials) a HN Ha q) as Hf.
    set (L := (p + zc * zc / (2 * IZR trials) - zc * a)
              / (1 + zc * zc / IZR trials)) in *.
    set (U := (p + zc * zc / (2 * IZR trials) + zc * a)
              / (1 + zc * zc / IZR trials)) in *.
    split.
    + intros Heq.
      assert (Hprod : (q - L) * (q - U) = 0).
      { assert (H0 : (1 + zc * zc / IZR trials) * ((q - L) * (q - U)) = 0)
          by (rewrite Hf; lra).
        apply Rmult_integral in H0 as [H0 | H0]; [lra | exact H0]. }
      apply Rmult_integral in Hprod as [H0 | H0]; [left | right]; lra.
    + intros [-> | ->].
      * rewrite Rminus_diag, Rmult_0_l, Rmult_0_r in Hf. lra.
      * rewrite Rminus_diag, Rmult_0_r, Rmult_0_r in Hf. lra.
Qed.

(** X3.  Over the reals, for every valid input the sample proportion lies
    inside the Wald interval and inside the Wilson interval. *)
Theorem estimate_inside (ppf : R -> R) (trials successes : Z) (conf : R) :
  upper_quantile ppf ->
  valid trials successes conf ->
  exists iw js,
    wald ppf trials successes conf = Ok iw
    /\ wilson ppf trials successes conf = Ok js
    /\ inside (spec_p_hat trials successes) iw
    /\ inside (spec_p_hat trials successes) js.
Proof.
  intros Hq (Hn & Hx & Hc).
  pose proof (Hq _ (level_above_median conf Hc)) as Hz.
  destruct (run_facts ppf trials successes conf Hn Hx)
    as (se & a & Hrun & Hp & HN & Hse & _ & Ha0 & Ha).
  unfold wald, wilson. rewrite Hrun.
  do 2 eexists; split; [reflexivity |]; split; [reflexivity |].
  unfold inside, spec_p_hat.
  cbn [lower upper wald_lower wald_upper wilson_lower wilson_upper].
  set (p := IZR successes / IZR trials) in *.
  set (zc := ppf _) in *.
  split; [split; nra |].
  pose proof (denominator_pos zc (IZR trials) HN) as Hd.
  apply between_roots.
  - apply Rmult_le_compat_r; [left; apply Rinv_0_lt_compat; exact Hd | nra].
  - pose proof (quadratic_factor p zc (IZR trials) a HN Ha p) as Hf.
    assert (Hneg : (p - p) ^ 2 - zc ^ 2 * (p * (1 - p) / IZR trials) <= 0).
    { assert (0 <= zc ^ 2 * (p * (1 - p) / IZR trials)).
      { apply Rmult_le_pos; [nra |].
        apply Rmult_le_pos; [nra | left; apply Rinv_0_lt_compat; exact HN]. }
      nra. }
    rewrite <- Hf in Hneg. nra.
Qed.

(** X4.  Over the reals, counting failures instead of successes mirrors
    both intervals about one half: at [trials - successes] each estimator
    returns [1 - upper, 1 - lower] of what it returns at [successes]. *)
Theorem complement_mirrors (ppf : R -> R) (trials successes : Z) (conf : R) :
  valid trials successes conf ->
  wald ppf trials (trials - successes) conf
  = fmap mirror (wald ppf trials successes conf)
  /\ wilson ppf trials (trials - successes) conf
     = fmap mirror (wilson ppf trials successes conf).
Proof.
  intros (Hn & Hx & _).
  assert (HN : 0 < IZR trials) by (apply IZR_lt; exact Hn).
  unfold wald, wilson. rewrite !cell_ok by lia.
  unfold mirror. cbn [fmap bind lower upper wald_lower wald_upper wilson_lower wilson_upper].
  rewrite minus_IZR.
  set (zc := ppf _).
  pose proof (denominator_pos zc (IZR trials) HN) as Hd.
  replace ((IZR trials - IZR successes) / IZR trials)
    with (1 - IZR successes / IZR trials) by (field; lra).
  set (p := IZR successes / IZR trials).
  replace ((1 - p) * (1 - (1 - p))) with (p * (1 - p)) by ring.
  set (se := R_sqrt.sqrt (p * (1 - p) / IZR trials)).
  set (a := R_sqrt.sqrt _).
  replace (zc * zc / IZR trials) with (2 * (zc * zc / (2 * IZR trials))) in *
    by (field; lra).
  set (t := zc * zc / (2 * IZR trials)) in *.
  split; do 2 f_equal; try ring; field; lra.
Qed.

(** X5.  Over the reals, with no successes the Wilson lower bound is
    exactly 0; with nothing but successes the Wald bounds are both 1 and
    the Wilson upper bound is exactly 1. *)
Theorem extreme_samples (ppf : R -> R) (trials : Z) (conf : R) :
  upper_quantile ppf ->
  (0 < trials)%Z ->
  0 < conf < 1 ->
  (exists v, cell ppf trials 0 conf = Ok v /\ wilson_lower v = 0)
  /\ (exists v, cell ppf trials trials conf = Ok v
                /\ wald_lower v = 1 /\ wald_upper v = 1
                /\ wilson_upper v = 1).
Proof.
  intros Hq Hn Hc.
  pose proof (Hq _ (level_above_median conf Hc)) as Hz.
  assert (HN : 0 < IZR trials) by (apply IZR_lt; exact Hn).
  set (zc := ppf (1 - (1 - conf) / 2)) in *.
  pose proof (denominator_pos zc (IZR trials) HN) as Hd.
  assert (Hroot : forall v : R, v = 0 ->
            R_sqrt.sqrt ((v + zc * zc / (4 * IZR trials)) / IZR trials)
            = zc / (2 * IZR trials)).
  { intros v ->.
    replace ((0 + zc * zc / (4 * IZR trials)) / IZR trials)
      with ((zc / (2 * IZR trials)) * (zc / (2 * IZR trials))) by (field; lra).
    apply sqrt_square.
    apply Rmult_le_pos; [lra | left; apply Rinv_0_lt_compat; lra]. }
  split.
  - rewrite cell_ok by lia. eexists; split; [reflexivity |].
    cbn [wilson_lower]. fold zc.
    rewrite Hroot by (unfold Rdiv; ring).
    unfold Rdiv. rewrite Rmult_0_l. apply Rmult_eq_0_compat_r. field. lra.
  - rewrite cell_ok by lia. eexists; split; [reflexivity |].
    cbn [wald_lower wald_upper wilson_upper]. fold zc.
    assert (E1 : IZR trials / IZR trials = 1) by (field; lra).
    rewrite E1. rewrite Hroot by ring.
    replace (1 * (1 - 1) / IZR trials) with 0 by (unfold Rdiv; ring).
    rewrite sqrt_0.
    repeat split; [ring | ring | field; split; nra].
Qed.

(** X6.  Over the reals, for every valid input the Wilson interval has
    [lower < upper], while the Wald interval shrinks to a single point
    exactly when [successes] is 0 or [trials]. *)
Theorem wilson_never_collapses (ppf : R -> R) (trials successes : Z) (conf : R) :
  upper_quantile ppf ->
  valid trials successes conf ->
  exists iw js,
    wald ppf trials successes conf = Ok iw
    /\ wilson ppf trials successes conf = Ok js
    /\ lower js < upper js
    /\ (lower iw = upper iw <-> successes = 0%Z \/ successes = trials).
Proof.
  intros Hq (Hn & Hx & Hc).
  pose proof (Hq _ (level_above_median conf Hc)) as Hz.
  destruct (run_facts ppf trials successes conf Hn Hx)
    as (se & a & Hrun & Hp & HN & Hse0 & Hse & Ha0 & Ha).
  unfold wald, wilson. rewrite Hrun.
  do 2 eexists; split; [reflexivity |]; split; [reflexivity |].
  cbn [fmap bind lower upper wald_lower wald_upper wilson_lower wilson_upper].
  set (p := IZR successes / IZR trials) in *.
  set (zc := ppf _) in *.
  pose proof (denominator_pos zc (IZR trials) HN) as Hd.
  assert (HpX : p * IZR trials = IZR successes) by (unfold p; field; lra).
  split.
  - assert (Hapos : 0 < a).
    { destruct Ha0 as [Hlt | Heq]; [exact Hlt | exfalso].
      rewrite <- Heq in Ha. rewrite Rmult_0_l in Ha.
      assert (Hrad : 0 < (p * (1 - p) + zc * zc / (4 * IZR trials)) / IZR trials).
      { apply Rmult_lt_0_compat; [| apply Rinv_0_lt_compat; exact HN].
        assert (0 < zc * zc / (4 * IZR trials)).
        { apply Rmult_lt_0_compat; [nra | apply Rinv_0_lt_compat; lra]. }
        nra. }
      lra. }
    apply Rmult_lt_compat_r; [apply Rinv_0_lt_compat; exact Hd | nra].
  - assert (Hv : se * se * IZR trials = p * (1 - p)).
    { rewrite Hse. field. lra. }
    split.
    + intros Heq. assert (Hse_0 : se = 0) by nra.
      rewrite Hse_0 in Hv. rewrite !Rmult_0_l in Hv.
      symmetry in Hv. apply Rmult_integral in Hv as [H0 | H1].
      * left. apply eq_IZR. nra.
      * right. apply eq_IZR. nra.
    + assert (Hse_0 : se = 0 -> p - zc * se = p + zc * se) by (intros ->; ring).
      intros [-> | ->]; apply Hse_0.
      * assert (p = 0) by (unfold p, Rdiv; ring). nra.
      * assert (p = 1) by (unfold p; field; lra). nra.
Qed.

Lemma excursion_iff (p w N zz : R) :
  0 <= p -> 0 <= w -> 0 < N -> 0 < zz ->
  w * w * N = zz * (p * (1 - p)) ->
  (p < w <-> 0 < p /\ N * (p * N) < zz * (N - p * N)).
Proof.
  intros Hp Hw HN Hzz Hsq. split.
  - intros Hlt.
    assert (Hpp : p * p < w * w) by nra.
    assert (Hp0 : 0 < p).
    { destruct Hp as [H | <-]; [exact H | exfalso].
      rewrite !Rmult_0_l, Rmult_0_r in Hsq.
      apply Rmult_integral in Hsq as [Hww | HN0]; [nra | lra]. }
    split; [exact Hp0 |].
    assert (H1 : p * (p * N) < p * (zz * (1 - p))).
    { replace (p * (p * N)) with (p * p * N) by ring.
      replace (p * (zz * (1 - p))) with (w * w * N) by (rewrite Hsq; ring).
      apply Rmult_lt_compat_r; assumption. }
    apply Rmult_lt_reg_l in H1; [| exact Hp0].
    replace (zz * (N - p * N)) with (N * (zz * (1 - p))) by ring.
    apply Rmult_lt_compat_l; assumption.
  - intros [Hp0 H].
    replace (zz * (N - p * N)) with (N * (zz * (1 - p))) in H by ring.
    apply Rmult_lt_reg_l in H; [| exact HN].
    assert (H1 : p * p * N < w * w * N).
    { rewrite Hsq.
      replace (p * p * N) with (p * (p * N)) by ring.
      replace (zz * (p * (1 - p))) with (p * (zz * (1 - p))) by ring.
      apply Rmult_lt_compat_l; assumption. }
    apply Rmult_lt_reg_r in H1; [| exact HN].
    apply (sq_lt_iff p w Hp Hw). exact H1.
Qed.

(** X7.  Over the reals, for every valid input the Wald lower bound is
    negative exactly when [0 < successes] and
    [trials * successes < z^2 (trials - successes)], and the upper bound is
    above 1 exactly when [successes < trials] and
    [trials (trials - successes) < z^2 successes]. *)
Theorem wald_excursions (ppf : R -> R) (trials successes : Z) (conf : R) :
  upper_quantile ppf ->
  valid trials successes conf ->
  exists i, wald ppf trials successes conf = Ok i
    /\ (lower i < 0 <->
        (0 < successes)%Z
        /\ IZR trials * IZR successes
           < spec_z ppf conf ^ 2 * IZR (trials - successes))
    /\ (1 < upper i <->
        (successes < trials)%Z
        /\ IZR trials * IZR (trials - successes)
           < spec_z ppf conf ^ 2 * IZR successes).
Proof.
  intros Hq (Hn & Hx & Hc).
  pose proof (Hq _ (level_above_median conf Hc)) as Hz.
  destruct (run_facts ppf trials successes conf Hn Hx)
    as (se & a & Hrun & Hp & HN & Hse0 & Hse & _ & _).
  unfold wald. rewrite Hrun.
  eexists; split; [reflexivity |].
  cbn [fmap bind lower upper wald_lower wald_upper]. unfold spec_z.
  rewrite minus_IZR.
  set (p := IZR successes / IZR trials) in *.
  set (zc := ppf _) in *.
  assert (HX : IZR successes = p * IZR trials) by (unfold p; field; lra).
  assert (Hv : se * se * IZR trials = p * (1 - p)).
  { rewrite Hse. field. lra. }
  assert (Hw : (zc * se) * (zc * se) * IZR trials = zc ^ 2 * (p * (1 - p))).
  { replace (zc * se * (zc * se) * IZR trials)
      with (zc ^ 2 * (se * se * IZR trials)) by ring.
    rewrite Hv. reflexivity. }
  assert (Hw0 : 0 <= zc * se) by (apply Rmult_le_pos; lra).
  set (w := zc * se) in *.
  assert (Hzz : 0 < zc ^ 2) by nra.
  split.
  - assert (E : (p - w < 0) <-> (p < w)) by (split; intros; lra).
    rewrite E.
    rewrite (excursion_iff p w (IZR trials) (zc ^ 2)
               (proj1 Hp) Hw0 HN Hzz Hw).
    rewrite HX. split.
    + intros [Hp0 H]. split; [apply lt_IZR; nra | exact H].
    + intros [Hpos H]. apply IZR_lt in Hpos. split; [nra | exact H].
  - assert (Hw' : w * w * IZR trials = zc ^ 2 * ((1 - p) * (1 - (1 - p)))).
    { rewrite Hw. ring. }
    assert (E : (1 < p + w) <-> (1 - p < w)) by (split; intros; lra).
    rewrite E.
    rewrite (excursion_iff (1 - p) w (IZR trials) (zc ^ 2)
               ltac:(lra) Hw0 HN Hzz Hw').
    rewrite HX.
    replace (IZR trials - (1 - p) * IZR trials) with (p * IZR trials) by ring.
    replace ((1 - p) * IZR trials) with (IZR trials - p * IZR trials) by ring.
    split.
    + intros [Hp1 H]. split; [apply lt_IZR; nra | exact H].
    + intros [Hlt H]. apply IZR_lt in Hlt. split; [nra | exact H].
Qed.

Lemma shrink_by_denominator (numer d B : R) :
  1 <= d -> - B <= numer <= B -> - B <= numer / d <= B.
Proof.
  intros Hd [Hlo Hhi].
  assert (Hd0 : 0 < d) by lra.
  assert (HB : 0 <= B) by lra.
  assert (Hinv : 0 < / d <= 1).
  { split; [apply Rinv_0_lt_compat; exact Hd0 |].
    rewrite <- Rinv_1. apply Rinv_le_contravar; lra. }
  unfold Rdiv. split; nra.
Qed.

(** X8.  Over the reals, for every valid input each Wilson bound is within
    [z^2 (2 + z) / (2 trials)] of the Wald bound on the same side: for a
    fixed level the two intervals agree up to a term of order
    [1 / trials]. *)
Theorem wilson_close_to_wald (ppf : R -> R) (trials successes : Z) (conf : R) :
  upper_quantile ppf ->
  valid trials successes conf ->
  exists iw js,
    wald ppf trials successes conf = Ok iw
    /\ wilson ppf trials successes conf = Ok js
    /\ Rabs (lower js - lower iw)
       <= spec_z ppf conf ^ 2 * (2 + spec_z ppf conf) / (2 * IZR trials)
    /\ Rabs (upper js - upper iw)
       <= spec_z ppf conf ^ 2 * (2 + spec_z ppf conf) / (2 * IZR trials).
Proof.
  intros Hq (Hn & Hx & Hc).
  pose proof (Hq _ (level_above_median conf Hc)) as Hz.
  destruct (run_facts ppf trials successes conf Hn Hx)
    as (se & a & Hrun & Hp & HN & Hse0 & Hse & Ha0 & Ha).
  unfold wald, wilson. rewrite Hrun.
  do 2 eexists; split; [reflexivity |]; split; [reflexivity |].
  cbn [fmap bind lower upper wald_lower wald_upper wilson_lower wilson_upper].
  unfold spec_z.
  set (p := IZR successes / IZR trials) in *.
  set (zc := ppf _) in *.
  assert (HN1 : 1 <= IZR trials) by (apply IZR_le; lia).
  set (N := IZR trials) in *.
  pose proof (half_term_nonneg zc N HN) as Ht.
  assert (Ehalf : zc * zc / N = 2 * (zc * zc / (2 * N))) by (field; lra).
  assert (Equart : zc * zc / (4 * N) = (zc * zc / (2 * N)) / 2) by (field; lra).
  assert (Ebound : zc ^ 2 * (2 + zc) / (2 * N) = zc * zc / (2 * N) * (2 + zc))
    by (field; lra).
  rewrite Ehalf, Ebound. rewrite Equart in Ha.
  set (t := zc * zc / (2 * N)) in *.
  assert (HtN : t * (2 * N) = zc * zc) by (unfold t; field; lra).
  (* the two roots differ by at most [zc / (2 N)] *)
  assert (Haa : a * a = se * se + t / (2 * N)).
  { rewrite Ha, Hse. field. lra. }
  assert (Hiv : 0 < / (2 * N)) by (apply Rinv_0_lt_compat; lra).
  assert (Hgap0 : se <= a).
  { apply sq_order; [exact Ha0 |]. rewrite Haa.
    assert (0 <= t / (2 * N)) by (apply Rmult_le_pos; lra). lra. }
  assert (Hzgap : zc * (a - se) <= t).
  { assert (Hu : a <= se + zc / (2 * N)).
    { apply sq_order.
      - assert (0 <= zc / (2 * N)) by (apply Rmult_le_pos; lra). lra.
      - rewrite Haa.
        assert (E : (se + zc / (2 * N)) * (se + zc / (2 * N))
                    = se * se + t / (2 * N) + se * zc / N).
        { unfold t. field. lra. }
        rewrite E.
        assert (0 <= se * zc / N).
        { apply Rmult_le_pos; [nra | left; apply Rinv_0_lt_compat; exact HN]. }
        lra. }
    assert (Ez : zc * (zc / (2 * N)) = t) by (unfold t; field; lra).
    nra. }
  assert (Hzgap0 : 0 <= zc * (a - se)) by nra.
  (* the Wald standard error is at most one half *)
  assert (Hse_half : se <= 1 / 2).
  { apply sq_order; [lra |]. rewrite Hse.
    assert (Hpp : p * (1 - p) <= 1 / 4).
    { pose proof (Rle_0_sqr (p - 1 / 2)) as Hs. unfold Rsqr in Hs. lra. }
    assert (HiN : 0 < / N <= 1).
    { split; [apply Rinv_0_lt_compat; exact HN |].
      rewrite <- Rinv_1. apply Rinv_le_contravar; lra. }
    assert (0 <= p * (1 - p)) by nra.
    unfold Rdiv. nra. }
  assert (Htz : 0 <= 2 * t * (zc * se) <= t * zc).
  { assert (Hw0 : 0 <= zc * se) by (apply Rmult_le_pos; lra).
    assert (Hw1 : zc * se <= zc * (1 / 2)) by (apply Rmult_le_compat_l; lra).
    split; [apply Rmult_le_pos; lra |].
    replace (t * zc) with (2 * t * (zc * (1 / 2))) by field.
    apply Rmult_le_compat_l; lra. }
  assert (Hd1 : 1 <= 1 + 2 * t) by lra.
  split; apply Rabs_le.
  - replace ((p + t - zc * a) / (1 + 2 * t) - (p - zc * se))
      with ((t * (1 - 2 * p) - zc * (a - se) + 2 * t * (zc * se)) / (1 + 2 * t))
      by (field; lra).
    apply shrink_by_denominator; [exact Hd1 |]. split; nra.
  - replace ((p + t + zc * a) / (1 + 2 * t) - (p + zc * se))
      with ((t * (1 - 2 * p) + zc * (a - se) - 2 * t * (zc * se)) / (1 + 2 * t))
      by (field; lra).
    apply shrink_by_denominator; [exact Hd1 |]. split; nra.
Qed.

(** A point of [0,1] that solves the score equation at [z1] lies between
    the Wilson bounds at any larger [z2]. *)
Lemma root_within_wider (p N z1 z2 a2 q : R) :
  0 <= p <= 1 -> 0 < N -> 0 <= z1 <= z2 -> 0 <= a2 ->
  a2 * a2 = (p * (1 - p) + z2 * z2 / (4 * N)) / N ->
  0 <= q <= 1 ->
  (p - q) ^ 2 = z1 ^ 2 * (q * (1 - q) / N) ->
  (p + z2 * z2 / (2 * N) - z2 * a2) / (1 + z2 * z2 / N) <= q
  /\ q <= (p + z2 * z2 / (2 * N) + z2 * a2) / (1 + z2 * z2 / N).
Proof.
  intros Hp HN Hz Ha0 Ha Hq Hroot.
  pose proof (denominator_pos z2 N HN) as Hd.
  pose proof (quadratic_factor p z2 N a2 HN Ha q) as Hf.
  assert (Hneg : (p - q) ^ 2 - z2 ^ 2 * (q * (1 - q) / N) <= 0).
  { rewrite Hroot.
    assert (Hv : 0 <= q * (1 - q) / N).
    { apply Rmult_le_pos; [nra | left; apply Rinv_0_lt_compat; exact HN]. }
    assert (Hzz : z1 ^ 2 <= z2 ^ 2) by nra.
    nra. }
  rewrite <- Hf in Hneg.
  apply between_roots.
  - apply Rmult_le_compat_r; [left; apply Rinv_0_lt_compat; exact Hd | nra].
  - nra.
Qed.

(** X9.  Over the reals, with a quantile function that does not decrease,
    raising the confidence level widens both intervals around the old
    ones: the Wald and the Wilson interval at the lower level lie within
    those at the higher level. *)
Theorem wider_with_confidence
  (ppf : R -> R) (trials successes : Z) (conf1 conf2 : R) :
  upper_quantile ppf ->
  increasing_quantile ppf ->
  valid trials successes conf1 ->
  valid trials successes conf2 ->
  conf1 <= conf2 ->
  exists iw1 iw2 js1 js2,
    wald ppf trials successes conf1 = Ok iw1
    /\ wald ppf trials successes conf2 = Ok iw2
    /\ wilson ppf trials successes conf1 = Ok js1
    /\ wilson ppf trials successes conf2 = Ok js2
    /\ nested iw1 iw2
    /\ nested js1 js2.
Proof.
  intros Hq Hinc (Hn & Hx & Hc1) (_ & _ & Hc2) Hle.
  pose proof (Hq _ (level_above_median conf1 Hc1)) as Hz1.
  assert (Hz12 : ppf (1 - (1 - conf1) / 2) <= ppf (1 - (1 - conf2) / 2)).
  { apply Hinc; lra. }
  pose proof (proportion_in_unit trials successes Hn Hx) as Hp.
  assert (HN : 0 < IZR trials) by (apply IZR_lt; exact Hn).
  unfold wald, wilson. rewrite !cell_ok by lia.
  do 4 eexists. repeat (split; [reflexivity |]).
  unfold nested.
  cbn [fmap bind lower upper wald_lower wald_upper wilson_lower wilson_upper].
  set (p := IZR successes / IZR trials) in *.
  set (z1 := ppf (1 - (1 - conf1) / 2)) in *.
  set (z2 := ppf (1 - (1 - conf2) / 2)) in *.
  set (N := IZR trials) in *.
  pose proof (sqrt_pos (p * (1 - p) / N)) as Hse.
  set (se := R_sqrt.sqrt (p * (1 - p) / N)) in *.
  split; [split; nra |].
  pose proof (sqrt_pos ((p * (1 - p) + z1 * z1 / (4 * N)) / N)) as Ha1.
  pose proof (sqrt_pos ((p * (1 - p) + z2 * z2 / (4 * N)) / N)) as Ha2.
  assert (Hs1 := sqrt_sqrt _ (radicand_nonneg p z1 N Hp HN)).
  assert (Hs2 := sqrt_sqrt _ (radicand_nonneg p z2 N Hp HN)).
  set (a1 := R_sqrt.sqrt ((p * (1 - p) + z1 * z1 / (4 * N)) / N)) in *.
  set (a2 := R_sqrt.sqrt ((p * (1 - p) + z2 * z2 / (4 * N)) / N)) in *.
  pose proof (denominator_pos z1 N HN) as Hd1.
  assert (Hz : 0 <= z1 <= z2) by lra.
  (* the bounds at the lower level are proportions *)
  assert (HL0 : 0 <= (p + z1 * z1 / (2 * N) - z1 * a1) / (1 + z1 * z1 / N)).
  { apply Rmult_le_pos; [| left; apply Rinv_0_lt_compat; exact Hd1].
    apply score_low; assumption. }
  assert (HU1 : (p + z1 * z1 / (2 * N) + z1 * a1) / (1 + z1 * z1 / N) <= 1).
  { apply Rmult_le_reg_r with (1 + z1 * z1 / N); [exact Hd1 |].
    unfold Rdiv at 1. rewrite Rmult_assoc, Rinv_l by lra.
    rewrite Rmult_1_r, Rmult_1_l. apply score_high; assumption. }
  assert (HLU : (p + z1 * z1 / (2 * N) - z1 * a1) / (1 + z1 * z1 / N)
                <= (p + z1 * z1 / (2 * N) + z1 * a1) / (1 + z1 * z1 / N)).
  { apply Rmult_le_compat_r; [left; apply Rinv_0_lt_compat; exact Hd1 | nra]. }
  split.
  - apply (root_within_wider p N z1 z2 a2 _ Hp HN Hz Ha2 Hs2);
      [split; lra | apply lower_root; assumption].
  - apply (root_within_wider p N z1 z2 a2 _ Hp HN Hz Ha2 Hs2);
      [split; lra | apply upper_root; assumption].
Qed.

(** *** The theorems above at a sample *)

Lemma sample_valid : valid 30 1 (95 / 100).
Proof. unfold valid; repeat split; (lia || lra). Qed.

Lemma twice_is_quantile :
  upper_quantile (fun q : R => 2 * q)
  /\ increasing_quantile (fun q : R => 2 * q).
Proof. split; [intros q Hq; lra | intros q1 q2 _ Hle _; lra]. Qed.

Lemma wilson_as_documented_witness :
  valid 30 1 (95 / 100)
  /\ wilson (fun q : R => 2 * q) 30 1 (95 / 100)
     = Ok (doc_wilson (fun q : R => 2 * q) 30 1 (95 / 100)).
Proof.
  split; [exact sample_valid |].
  exact (wilson_as_documented _ 30%Z 1%Z _ sample_valid).
Defined.

Lemma wilson_solves_score_witness :
  upper_quantile (fun q : R => 2 * q)
  /\ valid 30 1 (95 / 100)
  /\ exists i, wilson (fun q : R => 2 * q) 30 1 (95 / 100) = Ok i
       /\ lower i < upper i
       /\ forall q : R,
            score_equation (spec_p_hat 30 1)
              (spec_z (fun q : R => 2 * q) (95 / 100)) 30 q
            <-> (q = lower i \/ q = upper i).
Proof.
  split; [exact (proj1 twice_is_quantile) |]. split; [exact sample_valid |].
  exact (wilson_solves_score _ 30%Z 1%Z _
           (proj1 twice_is_quantile) sample_valid).
Defined.

Lemma estimate_inside_witness :
  upper_quantile (fun q : R => 2 * q)
  /\ valid 30 1 (95 / 100)
  /\ exists iw js,
       wald (fun q : R => 2 * q) 30 1 (95 / 100) = Ok iw
       /\ wilson (fun q : R => 2 * q) 30 1 (95 / 100) = Ok js
       /\ inside (spec_p_hat 30 1) iw
       /\ inside (spec_p_hat 30 1) js.
Proof.
  split; [exact (proj1 twice_is_quantile) |]. split; [exact sample_valid |].
  exact (estimate_inside _ 30%Z 1%Z _ (proj1 twice_is_quantile) sample_valid).
Defined.

Lemma complement_mirrors_witness :
  valid 30 1 (95 / 100)
  /\ wald (fun q : R => 2 * q) 30 (30 - 1) (95 / 100)
     = fmap mirror (wald (fun q : R => 2 * q) 30 1 (95 / 100))
  /\ wilson (fun q : R => 2 * q) 30 (30 - 1) (95 / 100)
     = fmap mirror (wilson (fun q : R => 2 * q) 30 1 (95 / 100)).
Proof.
  split; [exact sample_valid |].
  exact (complement_mirrors _ 30%Z 1%Z _ sample_valid).
Defined.

Lemma extreme_samples_witness :
  upper_quantile (fun q : R => 2 * q)
  /\ (0 < 30)%Z
  /\ 0 < 95 / 100 < 1
  /\ (exists v, cell (fun q : R => 2 * q) 30 0 (95 / 100) = Ok v
                /\ wilson_lower v = 0)
  /\ (exists v, cell (fun q : R => 2 * q) 30 30 (95 / 100) = Ok v
                /\ wald_lower v = 1 /\ wald_upper v = 1
                /\ wilson_upper v = 1).
Proof.
  assert (Hn : (0 < 30)%Z) by lia.
  assert (Hc : 0 < 95 / 100 < 1) by lra.
  split; [exact (proj1 twice_is_quantile) |].
  split; [exact Hn |]. split; [exact Hc |].
  exact (extreme_samples _ 30%Z _ (proj1 twice_is_quantile) Hn Hc).
Defined.

Lemma wilson_never_collapses_witness :
  upper_quantile (fun q : R => 2 * q)
  /\ valid 30 1 (95 / 100)
  /\ exists iw js,
       wald (fun q : R => 2 * q) 30 1 (95 / 100) = Ok iw
       /\ wilson (fun q : R => 2 * q) 30 1 (95 / 100) = Ok js
       /\ lower js < upper js
       /\ (lower iw = upper iw <-> 1%Z = 0%Z \/ 1%Z = 30%Z).
Proof.
  split; [exact (proj1 twice_is_quantile) |]. split; [exact sample_valid |].
  exact (wilson_never_collapses _ 30%Z 1%Z _
           (proj1 twice_is_quantile) sample_valid).
Defined.

Lemma wald_excursions_witness :
  upper_quantile (fun q : R => 2 * q)
  /\ valid 30 1 (95 / 100)
  /\ exists i, wald (fun q : R => 2 * q) 30 1 (95 / 100) = Ok i
       /\ (lower i < 0 <->
           (0 < 1)%Z
           /\ 30 * 1 < spec_z (fun q : R => 2 * q) (95 / 100) ^ 2 * IZR (30 - 1))
       /\ (1 < upper i <->
           (1 < 30)%Z
           /\ 30 * IZR (30 - 1)
              < spec_z (fun q : R => 2 * q) (95 / 100) ^ 2 * 1).
Proof.
  split; [exact (proj1 twice_is_quantile) |]. split; [exact sample_valid |].
  exact (wald_excursions _ 30%Z 1%Z _ (proj1 twice_is_quantile) sample_valid).
Defined.

Lemma wilson_close_to_wald_witness :
  upper_quantile (fun q : R => 2 * q)
  /\ valid 30 1 (95 / 100)
  /\ exists iw js,
       wald (fun q : R => 2 * q) 30 1 (95 / 100) = Ok iw
       /\ wilson (fun q : R => 2 * q) 30 1 (95 / 100) = Ok js
       /\ Rabs (lower js - lower iw)
          <= spec_z (fun q : R => 2 * q) (95 / 100) ^ 2
             * (2 + spec_z (fun q : R => 2 * q) (95 / 100)) / (2 * 30)
       /\ Rabs (upper js - upper iw)
          <= spec_z (fun q : R => 2 * q) (95 / 100) ^ 2
             * (2 + spec_z (fun q : R => 2 * q) (95 / 100)) / (2 * 30).
Proof.
  split; [exact (proj1 twice_is_quantile) |]. split; [exact sample_valid |].
  exact (wilson_close_to_wald _ 30%Z 1%Z _
           (proj1 twice_is_quantile) sample_valid).
Defined.

Lemma wider_with_confidence_witness :
  upper_quantile (fun q : R => 2 * q)
  /\ increasing_quantile (fun q : R => 2 * q)
  /\ valid 30 1 (90 / 100)
  /\ valid 30 1 (95 / 100)
  /\ 90 / 100 <= 95 / 100
  /\ exists iw1 iw2 js1 js2,
       wald (fun q : R => 2 * q) 30 1 (90 / 100) = Ok iw1
       /\ wald (fun q : R => 2 * q) 30 1 (95 / 100) = Ok iw2
       /\ wilson (fun q : R => 2 * q) 30 1 (90 / 100) = Ok js1
       /\ wilson (fun q : R => 2 * q) 30 1 (95 / 100) = Ok js2
       /\ nested iw1 iw2
       /\ nested js1 js2.
Proof.
  assert (H90 : valid 30 1 (90 / 100))
    by (unfold valid; repeat split; (lia || lra)).
  assert (Hle : 90 / 100 <= 95 / 100) by lra.
  split; [exact (proj1 twice_is_quantile) |].
  split; [exact (proj2 twice_is_quantile) |].
  split; [exact H90 |]. split; [exact sample_valid |]. split; [exact Hle |].
  exact (wider_with_confidence _ 30%Z 1%Z _ _
           (proj1 twice_is_quantile) (proj2 twice_is_quantile)
           H90 sample_valid Hle).
Defined.

End ShapeFacts.

(** ** The output of the cell *)

Module DisplayFacts.
Import Binary64 Display.

(** *** The rounding [fixed4] applies *)

(** What pins [round4 q] down: it is a nearest integer to [10^4 q], and the
    even one of the two when [10^4 q] is half way. *)
Lemma round4_nearest (q : Q) :
  (2 * Z.abs (round4 q * Zpos (Qden q) - Qnum q * 10000) <= Zpos (Qden q))%Z
  /\ ((2 * Z.abs (round4 q * Zpos (Qden q) - Qnum q * 10000) = Zpos (Qden q))%Z
      -> Z.even (round4 q) = true).
Proof.
  unfold round4.
  set (a := (Qnum q * 10000)%Z). set (b := Zpos (Qden q)).
  assert (Hb : (0 < b)%Z) by (unfold b; lia).
  pose proof (Z.div_mod a b ltac:(lia)) as Hdm.
  pose proof (Z.mod_pos_bound a b Hb) as Hr.
  set (m := (a / b)%Z) in *. set (r := (a mod b)%Z) in *.
  assert (Em : (m * b - a = - r)%Z) by lia.
  assert (Em1 : ((m + 1) * b - a = b - r)%Z) by lia.
  destruct (Z.compare_spec (2 * r) b) as [Heq | Hlt | Hgt].
  - destruct (Z.even m) eqn:Hev.
    + rewrite Em. split; [lia | intros _; exact Hev].
    + rewrite Em1. split; [lia |]. intros _.
      replace (m + 1)%Z with (Z.succ m) by lia.
      rewrite Z.even_succ, <- Z.negb_even, Hev. reflexivity.
  - rewrite Em. split; lia.
  - rewrite Em1. split; lia.
Qed.

Lemma even_neighbours (k : Z) :
  Z.even k = true -> Z.even (k + 1) = true -> False.
Proof.
  intros Hk Hk1. replace (k + 1)%Z with (Z.succ k) in Hk1 by lia.
  rewrite Z.even_succ, <- Z.negb_even, Hk in Hk1. discriminate.
Qed.

(** Two integers that both qualify as the rounding of [a / b], the first
    for a value no larger than the second, are in order. *)
Lemma nearest_ordered (a1 b1 k1 a2 b2 k2 : Z) :
  (0 < b1)%Z -> (0 < b2)%Z ->
  (a1 * b2 <= a2 * b1)%Z ->
  (2 * Z.abs (k1 * b1 - a1) <= b1)%Z ->
  ((2 * Z.abs (k1 * b1 - a1) = b1)%Z -> Z.even k1 = true) ->
  (2 * Z.abs (k2 * b2 - a2) <= b2)%Z ->
  ((2 * Z.abs (k2 * b2 - a2) = b2)%Z -> Z.even k2 = true) ->
  (k1 <= k2)%Z.
Proof.
  intros Hb1 Hb2 Hle H1 E1 H2 E2.
  destruct (Z_le_gt_dec k1 k2) as [Hok | Hgt]; [exact Hok | exfalso].
  assert (U1 : (2 * (k1 * b1 - a1) <= b1)%Z) by lia.
  assert (U2 : (2 * (a2 - k2 * b2) <= b2)%Z) by lia.
  assert (V1 : (2 * (k1 * b1 - a1) * b2 <= b1 * b2)%Z) by nia.
  assert (V2 : (2 * (a2 - k2 * b2) * b1 <= b1 * b2)%Z) by nia.
  assert (Hbb : (0 < b1 * b2)%Z) by nia.
  assert (Hsum : (2 * (k1 - k2) * (b1 * b2) + 2 * (a2 * b1 - a1 * b2)
                  <= 2 * (b1 * b2))%Z) by nia.
  assert (Hd : (k1 = k2 + 1)%Z) by nia.
  subst k1.
  assert (Hcross : (a2 * b1 = a1 * b2)%Z) by nia.
  assert (T1 : (2 * ((k2 + 1) * b1 - a1) * b2 = b1 * b2)%Z) by nia.
  assert (T2 : (2 * (a2 - k2 * b2) * b1 = b1 * b2)%Z) by nia.
  assert (T1' : (2 * ((k2 + 1) * b1 - a1) = b1)%Z) by nia.
  assert (T2' : (2 * (a2 - k2 * b2) = b2)%Z) by nia.
  apply (even_neighbours k2); [apply E2 | apply E1]; lia.
Qed.

Lemma round4_unique (q : Q) (k : Z) :
  (2 * Z.abs (k * Zpos (Qden q) - Qnum q * 10000) <= Zpos (Qden q))%Z ->
  ((2 * Z.abs (k * Zpos (Qden q) - Qnum q * 10000) = Zpos (Qden q))%Z
   -> Z.even k = true) ->
  k = round4 q.
Proof.
  intros Hk Ek. destruct (round4_nearest q) as [Hr Er].
  set (a := (Qnum q * 10000)%Z) in *. set (b := Zpos (Qden q)) in *.
  assert (Hb : (0 < b)%Z) by (unfold b; lia).
  apply Z.le_antisymm.
  - apply (nearest_ordered a b k a b (round4 q)); try assumption; lia.
  - apply (nearest_ordered a b (round4 q) a b k); try assumption; lia.
Qed.

Lemma round4_accurate (q : Q) :
  (Qabs (inject_Z (round4 q) / 10000 - q) <= 1 # 20000)%Q
  /\ round4 (- q) = (- round4 q)%Z.
Proof.
  destruct (round4_nearest q) as [Hn En].
  split.
  - apply Qabs_Qle_condition.
    set (k := round4 q) in *.
    destruct q as [a b]. cbn [Qnum Qden] in Hn.
    unfold Qle, Qminus, Qplus, Qopp, Qdiv, Qmult, Qinv, inject_Z.
    cbn [Qnum Qden]. split; lia.
  - symmetry. apply round4_unique.
    + destruct q as [a b]. cbn [Qopp Qnum Qden] in *. lia.
    + destruct q as [a b]. cbn [Qopp Qnum Qden] in *.
      intros H. rewrite Z.even_opp. apply En. lia.
Qed.

Lemma round4_monotone (q1 q2 : Q) :
  (q1 <= q2)%Q -> (round4 q1 <= round4 q2)%Z.
Proof.
  intros Hle.
  destruct (round4_nearest q1) as [H1 E1].
  destruct (round4_nearest q2) as [H2 E2].
  apply (nearest_ordered (Qnum q1 * 10000) (Zpos (Qden q1)) (round4 q1)
                         (Qnum q2 * 10000) (Zpos (Qden q2)) (round4 q2));
    try assumption; try lia.
  unfold Qle in Hle.
  replace (Qnum q1 * 10000 * Zpos (Qden q2))%Z
    with (10000 * (Qnum q1 * Zpos (Qden q2)))%Z by ring.
  replace (Qnum q2 * 10000 * Zpos (Qden q1))%Z
    with (10000 * (Qnum q2 * Zpos (Qden q1)))%Z by ring.
  lia.
Qed.

Lemma round4_zero : round4 0 = 0%Z.
Proof. reflexivity. Qed.

Lemma round4_abs (q : Q) : round4 (Qabs q) = Z.abs (round4 q).
Proof.
  destruct (Qlt_le_dec q 0) as [Hneg | Hpos].
  - assert (Hk : (round4 q <= 0)%Z).
    { rewrite <- round4_zero. apply round4_monotone, Qlt_le_weak, Hneg. }
    assert (E : Qabs q = (- q)%Q).
    { destruct q as [a b]. unfold Qlt in Hneg. cbn [Qnum Qden] in Hneg.
      unfold Qabs, Qopp. cbn [Qnum Qden]. f_equal. lia. }
    rewrite E. rewrite (proj2 (round4_accurate q)). lia.
  - assert (Hk : (0 <= round4 q)%Z).
    { rewrite <- round4_zero. apply round4_monotone, Hpos. }
    assert (E : Qabs q = q).
    { destruct q as [a b]. unfold Qle in Hpos. cbn [Qnum Qden] in Hpos.
      unfold Qabs. f_equal. lia. }
    rewrite E. lia.
Qed.

(** X13.  On its own data ([n = 30], [x = 1], [conf_level = 0.95], with
    scipy's quantile at 0.975) the cell writes, byte for byte, the three
    lines recorded as its output in the notebook. *)
Theorem notebook_prints_recorded_output (ppf : float -> float) :
  ppf q_975 = z_975 ->
  notebook ppf 30 1 conf_95
  = Ok [ "Sample proportion (p̂): 0.0333"%string;
         "Wald CI:    (-0.0309, 0.0976)"%string;
         "Wilson CI:  (0.0059, 0.1667)"%string ].
Proof.
  intros H. unfold notebook.
  rewrite (Binary64Facts.cell_at_95 ppf 30 1 H).
  vm_compute. reflexivity.
Qed.

Lemma notebook_prints_recorded_output_witness :
  ppf_95 q_975 = z_975
  /\ notebook ppf_95 30 1 conf_95
     = Ok [ "Sample proportion (p̂): 0.0333"%string;
            "Wald CI:    (-0.0309, 0.0976)"%string;
            "Wilson CI:  (0.0059, 0.1667)"%string ].
Proof.
  split; [reflexivity |].
  apply (notebook_prints_recorded_output ppf_95). reflexivity.
Defined.
End DisplayFacts.

(** ** How the cell can fail *)

Section Failure.
Context {T : Type} {arith : Arith T}.
Variable norm_ppf : T -> T.

(** X10.  Whatever the arithmetic, the cell can fail in two ways only:
    with [ZeroDivisionError], and then [n = 0], or with [OverflowError],
    and then [n <> 0] (an [int] did not fit a float). *)
Theorem failure_modes (n x : Z) (conf : T) (e : exn) :
  cell norm_ppf n x conf = Raise e ->
  (e = ZeroDivisionError /\ n = 0%Z) \/ (e = OverflowError /\ n <> 0%Z).
Proof.
  unfold cell, py_truediv, lift, bind.
  destruct (Z.eqb_spec n 0) as [E | Hn].
  - intros H. injection H as <-. left. split; [reflexivity | exact E].
  - destruct (int_quot x n);
      [| intros H; injection H as <-; right; split; [reflexivity | exact Hn]].
    destruct (int_to_float n);
      [| intros H; injection H as <-; right; split; [reflexivity | exact Hn]].
    destruct (int_to_float (2 * n));
      [| intros H; injection H as <-; right; split; [reflexivity | exact Hn]].
    destruct (int_to_float (4 * n));
      [discriminate
      | intros H; injection H as <-; right; split; [reflexivity | exact Hn]].
Qed.
End Failure.

Lemma failure_modes_witness :
  cell (arith := Binary64.b64_arith) Binary64.ppf_95 (2 ^ 1024) 1
       Binary64.conf_95
  = Raise OverflowError
  /\ ((OverflowError = ZeroDivisionError /\ (2 ^ 1024 = 0)%Z)
      \/ (OverflowError = OverflowError /\ (2 ^ 1024 <> 0)%Z)).
Proof.
  assert (H : cell (arith := Binary64.b64_arith) Binary64.ppf_95 (2 ^ 1024) 1
                   Binary64.conf_95
              = Raise OverflowError)
    by (vm_compute; reflexivity).
  split; [exact H |].
  exact (failure_modes Binary64.ppf_95 (2 ^ 1024) 1 Binary64.conf_95 _ H).
Defined.

(** ** Where the binary64 run parts from the reals *)

Module RoundingFacts.
Import Binary64.


(** The two predicates of exactness hold where nothing is rounded: a run
    whose bounds are dyadic. *)
Lemma exact_pairs_recognised :
  returns (wald (fun _ => 0x1p+1%float) 4 2 conf_95)
          (fun i => on_exact_wald 4 2 0x1p+1%float (lower i)
                    /\ on_exact_wald 4 2 0x1p+1%float (upper i))
  /\ returns (wilson (fun _ => 0x1p+0%float) 1 0 conf_95)
             (fun i => on_exact_wilson 1 0 0x1p+0%float (lower i)
                       /\ on_exact_wilson 1 0 0x1p+0%float (upper i)).
Proof. split; vm_compute; split; reflexivity. Qed.

(** At the top level the quantile is asked for at 1.0. *)
Lemma level_top : (lit1 - (lit1 - conf_top) / lit2)%A = 0x1p+0%float.
Proof. reflexivity. Qed.





(** Against C9 as stated: with [trials = 1] the Wald width is the same at
    [successes = 0] and [1], so it neither rises nor falls; and in
    binary64 the widths do not rise all the way to the middle: the Wald
    interval of [trials = 5492036] and the Wilson interval of
    [trials = 3541264] are wider one step before [successes = trials / 2]
    than at it. *)
Lemma widths_do_not_rise_then_fall :
  same_width (wald ppf_95 1 0 conf_95) (wald ppf_95 1 1 conf_95)
  /\ (5492036 / 2 = 2746018)%Z
  /\ wider (wald ppf_95 5492036 2746017 conf_95)
           (wald ppf_95 5492036 2746018 conf_95)
  /\ (3541264 / 2 = 1770632)%Z
  /\ wider (wilson ppf_95 3541264 1770631 conf_95)
           (wilson ppf_95 3541264 1770632 conf_95).
Proof.
  split; [vm_compute; reflexivity |].
  split; [reflexivity |].
  split; [vm_compute; reflexivity |].
  split; [reflexivity |].
  vm_compute. reflexivity.
Qed.

End RoundingFacts.
